(** * WebPageCrawler: a shallow embedding of [crawler.py]

    The development follows the layout of the Python module: the pure
    helpers first, then the [Crawler] object and its methods, then the
    scheduler loop of [Crawler.run].  Collaborators that live outside the
    module (the browser, the file system, the robots.txt fetcher, the
    event loop) are gathered in a [World] record of oracles, so that every
    definition is a total, executable function. *)

From Stdlib Require Import ZArith QArith Lia Lqa List Ascii String.
From stdpp Require Import base gmap strings list sorting.
Import ListNotations.

Set Warnings "-clear-no-such-hyp".

Open Scope Z_scope.
Open Scope string_scope.

(** ** Module-level helpers *)

(** [normalize_url]: [urldefrag(url)[0]].  A URL without [#] is returned
    as it is; otherwise the fragment starts at the first [#] and what
    precedes it is kept (the parts [urlparse] finds there are put together
    again unchanged). *)
Fixpoint normalize_url (url : string) : string :=
  match url with
  | EmptyString => EmptyString
  | String c rest =>
      if Ascii.eqb c "#"%char then EmptyString else String c (normalize_url rest)
  end.

(** [url.startswith(p)] *)
Definition startswith (url p : string) : bool := String.prefix p url.

(** Truthiness of a Python string and of a Python list. *)
Definition truthy (s : string) : bool :=
  match s with EmptyString => false | _ => true end.

Definition nonempty {A} (l : list A) : bool :=
  match l with [] => false | _ => true end.

(** [u in s] for a Python set of strings. *)
Definition mem (u : string) (s : gset string) : bool := bool_decide (u ∈ s).

(** [str.lower] on the ASCII letters. *)
Definition lower_ascii (a : ascii) : ascii :=
  let n := nat_of_ascii a in
  if ((65 <=? n)%nat && (n <=? 90)%nat)%bool then ascii_of_nat (n + 32) else a.

Fixpoint lower (s : string) : string :=
  match s with
  | EmptyString => EmptyString
  | String a rest => String (lower_ascii a) (lower rest)
  end.

(** The part of [urlparse(url)] the crawler reads: [scheme] is what
    precedes ["://"], [netloc] runs from there to the next [/], [?] or
    [#]. *)
Fixpoint until_delim (s : string) : string :=
  match s with
  | EmptyString => EmptyString
  | String a rest =>
      if (Ascii.eqb a "/" || Ascii.eqb a "?" || Ascii.eqb a "#")%bool
      then EmptyString else String a (until_delim rest)
  end.

Fixpoint split_scheme (s : string) : string * string :=
  match s with
  | EmptyString => (EmptyString, EmptyString)
  | String a rest =>
      if String.prefix "://" s then (EmptyString, until_delim (substring 3 (String.length rest) s))
      else let '(sch, loc) := split_scheme rest in (String a sch, loc)
  end.

Definition url_scheme (url : string) : string := fst (split_scheme url).
Definition url_netloc (url : string) : string := snd (split_scheme url).

(** [f"{parsed.scheme}://{parsed.netloc}"] *)
Definition url_origin (url : string) : string :=
  url_scheme url ++ "://" ++ url_netloc url.

Definition LOAD_MORE_TEXTS : list string :=
  ["load more"; "show more"; "load more articles"; "加载更多"; "更多";
   "view more"; "show more"].

Definition NEXT_PAGE_TEXTS : list string :=
  ["next"; "next >"; "后页"; ">"; "›"; "下一页"; "下一頁"; "后页"; "下一章";
   "下一"].

(** ** Data *)

(** The value stored under a URL in the history mapping. *)
Record HistoryRecord := {
  filename : string;
  sha1 : string;
  saved_at : string;
}.

(** [urllib.robotparser.RobotFileParser], the standard-library parser the
    crawler instantiates.  [rules] stands for the entry lookup [can_fetch]
    performs for agent ["*"] once a file has been parsed; [last_checked]
    is [true] when [modified()] has stored a (non-zero) time. *)
Record RobotFileParser := {
  disallow_all : bool;
  allow_all : bool;
  last_checked : bool;
  rules : string -> bool;
}.

(** [RobotFileParser()]: nothing read yet. *)
Definition new_parser : RobotFileParser :=
  {| disallow_all := false; allow_all := false; last_checked := false;
     rules := fun _ => true |}.

(** What [rp.read()] meets on the network. *)
Inductive ReadOutcome :=
| ReadRaises                       (* URLError, timeout, undecodable body *)
| ReadHTTPError (code : Z)         (* urllib.error.HTTPError, handled inside read *)
| ReadParsed (allow : string -> bool).

(** [RobotFileParser.read]; [None] when the call raises. *)
Definition parser_read (rp : RobotFileParser) (o : ReadOutcome)
  : option RobotFileParser :=
  match o with
  | ReadRaises => None
  | ReadHTTPError code =>
      if (Z.eqb code 401 || Z.eqb code 403)%bool then
        Some {| disallow_all := true; allow_all := allow_all rp;
                last_checked := last_checked rp; rules := rules rp |}
      else if (Z.leb 400 code && Z.ltb code 500)%bool then
        Some {| disallow_all := disallow_all rp; allow_all := true;
                last_checked := last_checked rp; rules := rules rp |}
      else Some rp
  | ReadParsed allow =>
      Some {| disallow_all := disallow_all rp; allow_all := allow_all rp;
              last_checked := true; rules := allow |}
  end.

(** [RobotFileParser.can_fetch("*", url)] *)
Definition can_fetch (rp : RobotFileParser) (url : string) : bool :=
  if disallow_all rp then false
  else if allow_all rp then true
  else if negb (last_checked rp) then false
  else rules rp url.

(** The [Crawler] object ([self]). *)
Record Crawler := {
  start_url : string;
  concurrency : Z;
  max_depth : Z;
  timeout_ms : Z;
  delay_s : Q;
  prefixes : list string;
  refresh_mode : string;
  obey_robots : bool;
  no_new_limit : Z;
  deal_cookie : bool;
  history_file : string;
  history : gmap string HistoryRecord;
  processed_urls : gset string;
  seen_urls : gset string;
  robots_cache : gmap string RobotFileParser;
}.

Definition set_seen_urls (s : gset string) (c : Crawler) : Crawler :=
  {| start_url := start_url c; concurrency := concurrency c;
     max_depth := max_depth c; timeout_ms := timeout_ms c;
     delay_s := delay_s c; prefixes := prefixes c;
     refresh_mode := refresh_mode c; obey_robots := obey_robots c;
     no_new_limit := no_new_limit c; deal_cookie := deal_cookie c;
     history_file := history_file c; history := history c;
     processed_urls := processed_urls c; seen_urls := s;
     robots_cache := robots_cache c |}.

Definition set_processed_urls (s : gset string) (c : Crawler) : Crawler :=
  {| start_url := start_url c; concurrency := concurrency c;
     max_depth := max_depth c; timeout_ms := timeout_ms c;
     delay_s := delay_s c; prefixes := prefixes c;
     refresh_mode := refresh_mode c; obey_robots := obey_robots c;
     no_new_limit := no_new_limit c; deal_cookie := deal_cookie c;
     history_file := history_file c; history := history c;
     processed_urls := s; seen_urls := seen_urls c;
     robots_cache := robots_cache c |}.

Definition set_history (h : gmap string HistoryRecord) (c : Crawler) : Crawler :=
  {| start_url := start_url c; concurrency := concurrency c;
     max_depth := max_depth c; timeout_ms := timeout_ms c;
     delay_s := delay_s c; prefixes := prefixes c;
     refresh_mode := refresh_mode c; obey_robots := obey_robots c;
     no_new_limit := no_new_limit c; deal_cookie := deal_cookie c;
     history_file := history_file c; history := h;
     processed_urls := processed_urls c; seen_urls := seen_urls c;
     robots_cache := robots_cache c |}.

Definition set_robots_cache (r : gmap string RobotFileParser) (c : Crawler) : Crawler :=
  {| start_url := start_url c; concurrency := concurrency c;
     max_depth := max_depth c; timeout_ms := timeout_ms c;
     delay_s := delay_s c; prefixes := prefixes c;
     refresh_mode := refresh_mode c; obey_robots := obey_robots c;
     no_new_limit := no_new_limit c; deal_cookie := deal_cookie c;
     history_file := history_file c; history := history c;
     processed_urls := processed_urls c; seen_urls := seen_urls c;
     robots_cache := r |}.

(** What an observer of a run can see happen. *)
Inductive Event :=
| EvSeen (url : string)                                (* self.seen_urls.add(url) *)
| EvDispatch (url : string) (depth : Z)                (* create_task(self._process_page_task(url, depth)) *)
| EvOpen (url : string) (depth : Z)                    (* page.goto(url, ...) *)
| EvPdf (url : string)                                 (* page.pdf(...) completed *)
| EvRecord (url : string)                              (* self.save_history_entry(url, ...) *)
| EvReturn (url : string) (depth : Z) (links : list string)  (* the task returned links *)
| EvRaise (url : string) (depth : Z)                   (* the task raised *)
| EvWarning (what : string) (about : string).          (* logging.warning(...) *)

(** The crawler together with what it acts on: [files] maps a path to the
    text of the file stored there, [log] holds the newest event first. *)
Record Machine := {
  self : Crawler;
  files : gmap string string;
  log : list Event;
}.

Definition with_self (f : Crawler -> Crawler) (m : Machine) : Machine :=
  {| self := f (self m); files := files m; log := log m |}.

Definition with_files (fs : gmap string string) (m : Machine) : Machine :=
  {| self := self m; files := fs; log := log m |}.

Definition emit (e : Event) (m : Machine) : Machine :=
  {| self := self m; files := files m; log := e :: log m |}.

(** How far a [write_json_atomic] call has come. *)
Inductive Progress :=
| AtStart                 (* before aiofiles.open *)
| Opened                  (* the temporary file exists and is empty *)
| Writing (n : nat)       (* the first n characters have reached it *)
| Written                 (* all of the text is in it, file closed *)
| Replaced.               (* os.replace has moved it over the target *)

(** What the file system does to one [write_json_atomic] call. *)
Inductive IOResult :=
| Completes
| Raises (at_ : Progress) (unlink_ok : bool).

(** The collaborators.  The [nat] argument is the number of the portal
    round ([iteration] in [Crawler.run]) in which the call is made. *)
Record World := {
  (* page.eval_on_selector_all("a[href]", ...) on the portal page; None: it raised *)
  portal_hrefs : nat -> option (list string);
  (* the same on the page opened for a URL *)
  page_hrefs : nat -> string -> option (list string);
  (* self.browser.new_page() returned a page *)
  new_page_ok : nat -> string -> bool;
  (* page.pdf(...) finished within timeout_ms without raising *)
  pdf_ok : nat -> string -> bool;
  (* f"{prefix}_{h}.pdf" for the title the page reports *)
  artifact_name : nat -> string -> string;
  (* hashlib.sha1(url.encode("utf-8")).hexdigest() *)
  sha1_hex : string -> string;
  (* datetime.now(timezone.utc).isoformat() *)
  utc_now : nat -> string -> string;
  (* a locator for the text matched and clicking its first element succeeded *)
  click_ok : nat -> string -> bool;
  (* the same for a[rel="next"] *)
  rel_next_ok : nat -> bool;
  (* json.dumps(data, ensure_ascii=False, indent=2) and json.loads *)
  json_dumps : gmap string HistoryRecord -> string;
  json_loads : string -> option (gmap string HistoryRecord);
  (* what happens to the history write made for a URL *)
  io_result : nat -> string -> IOResult;
  (* what rp.read() meets for an origin *)
  robots_read : string -> ReadOutcome;
  (* the order in which the event loop lets the tasks of a level run on *)
  rank : nat -> Z -> string -> nat;
}.

(** ** [read_json] and [write_json_atomic] *)

(** [read_json(path)]: the mapping read, and whether a warning was logged. *)
Definition read_json (w : World) (fs : gmap string string) (path : string)
  : gmap string HistoryRecord * bool :=
  match fs !! path with
  | None => (∅, false)
  | Some content =>
      match json_loads w content with
      | Some data => (data, false)
      | None => (∅, true)
      end
  end.

(** [path.with_suffix(path.suffix + ".tmp")] *)
Definition tmp_path (path : string) : string := path ++ ".tmp".

(** The operations a call performs on the file system. *)
Inductive FsOp :=
| OpOpen (p : string)                (* open(p, "w"): create or truncate *)
| OpWrite (p : string) (s : string)  (* the text s reaches the open file p *)
| OpReplace (src dst : string).      (* os.replace(src, dst) *)

Definition fs_apply (fs : gmap string string) (op : FsOp) : gmap string string :=
  match op with
  | OpOpen p => <[p := ""]> fs
  | OpWrite p s => <[p := s]> fs
  | OpReplace src dst =>
      match fs !! src with
      | Some s => <[dst := s]> (delete src fs)
      | None => fs
      end
  end.

(** The operations a [write_json_atomic(path, ...)] call that writes
    [content] has performed when it has come as far as [p]. *)
Definition ops_done (p : Progress) (path content : string) : list FsOp :=
  let tmp := tmp_path path in
  match p with
  | AtStart => []
  | Opened => [OpOpen tmp]
  | Writing n => [OpOpen tmp; OpWrite tmp (substring 0 n content)]
  | Written => [OpOpen tmp; OpWrite tmp content]
  | Replaced => [OpOpen tmp; OpWrite tmp content; OpReplace tmp path]
  end.

(** The file system at that point. *)
Definition files_at (p : Progress) (fs : gmap string string)
    (path content : string) : gmap string string :=
  fold_left fs_apply (ops_done p path content) fs.

(** The [except Exception] handler: the temporary file is unlinked when it
    exists, and a failure to do so is swallowed. *)
Definition cleanup_tmp (unlink_ok : bool) (fs : gmap string string)
    (path : string) : gmap string string :=
  if unlink_ok then delete (tmp_path path) fs else fs.

(** [write_json_atomic(path, data)]: the file system afterwards, and
    whether the warning was logged.  The call itself never raises. *)
Definition write_json_atomic (w : World) (r : IOResult)
    (fs : gmap string string) (path : string)
    (data : gmap string HistoryRecord) : gmap string string * bool :=
  let content := json_dumps w data in
  match r with
  | Completes => (files_at Replaced fs path content, false)
  | Raises Replaced _ => (files_at Replaced fs path content, false)
  | Raises p unlink_ok => (cleanup_tmp unlink_ok (files_at p fs path content) path, true)
  end.

(** ** [Crawler.__init__] *)

(** The [prefixes] argument is a list, or a bare string. *)
Inductive PrefixArg :=
| PrefixList (l : list string)
| PrefixStr (s : string).

Record Config := {
  cfg_start_url : string;
  cfg_history_path : string;
  cfg_concurrency : Z;
  cfg_max_depth : Z;
  cfg_timeout : Z;
  cfg_delay : Q;
  cfg_refresh_mode : string;
  cfg_no_new_limit : Z;
  cfg_prefixes : PrefixArg;
  cfg_obey_robot : bool;
  cfg_deal_cookie : bool;
}.

(** Python's [max(a, b)] is [b] when [b > a] and [a] otherwise. *)
Definition py_max_Z (a b : Z) : Z := if Z.ltb a b then b else a.

(** [a < b] on the rationals that stand for Python floats. *)
Definition Qltb (a b : Q) : bool := negb (Qle_bool b a).

Definition py_max_Q (a b : Q) : Q := if Qltb a b then b else a.

(** [if len(prefixes) and isinstance(prefixes, str): prefixes = [prefixes]];
    an empty string is left as it is, and is as falsy as an empty list. *)
Definition init_prefixes (p : PrefixArg) : list string :=
  match p with
  | PrefixList l => l
  | PrefixStr s => if truthy s then [s] else []
  end.

(** [refresh_mode.lower() if refresh_mode else "none"], and ["none"] for
    any value that is not one of the three modes. *)
Definition init_refresh_mode (s : string) : string :=
  let r := if truthy s then lower s else "none" in
  if (String.eqb r "pull" || String.eqb r "pagination" || String.eqb r "none")%bool
  then r else "none".

Definition init (cfg : Config) : Crawler :=
  {| start_url := normalize_url (cfg_start_url cfg);
     concurrency := py_max_Z 1 (cfg_concurrency cfg);
     max_depth := py_max_Z 1 (cfg_max_depth cfg);
     timeout_ms := py_max_Z 1000 (cfg_timeout cfg);
     delay_s := py_max_Q 0 (cfg_delay cfg);
     prefixes := init_prefixes (cfg_prefixes cfg);
     refresh_mode := init_refresh_mode (cfg_refresh_mode cfg);
     obey_robots := cfg_obey_robot cfg;
     no_new_limit := py_max_Z 1 (cfg_no_new_limit cfg);
     deal_cookie := cfg_deal_cookie cfg;
     history_file := cfg_history_path cfg;
     history := ∅;
     processed_urls := ∅;
     seen_urls := ∅;
     robots_cache := ∅ |}.

(** ** Methods of [Crawler] *)

(** [Crawler.load_history] *)
Definition load_history (w : World) (m : Machine) : Machine :=
  let '(data, warned) := read_json w (files m) (history_file (self m)) in
  let m := if warned then emit (EvWarning "Failed to read json" (history_file (self m))) m
           else m in
  with_self (fun c => set_processed_urls (dom data) (set_history data c)) m.

(** [Crawler.save_history_entry]; [it] is the portal round. *)
Definition save_history_entry (w : World) (it : nat) (m : Machine)
    (url fname h : string) : Machine :=
  let m := emit (EvRecord url) m in
  let entry := {| filename := fname; sha1 := h; saved_at := utc_now w it url |} in
  let m := with_self (fun c => set_history (<[url := entry]> (history c)) c) m in
  (* persist *)
  let '(fs, warned) :=
    write_json_atomic w (io_result w it url) (files m)
      (history_file (self m)) (history (self m)) in
  let m := with_files fs m in
  let m := if warned then emit (EvWarning "Failed to write json" (history_file (self m))) m
           else m in
  (* update processed_urls set *)
  with_self (fun c => set_processed_urls ({[url]} ∪ processed_urls c) c) m.

(** [Crawler.prefix_allowed] *)
Fixpoint any_startswith (url : string) (ps : list string) : bool :=
  match ps with
  | [] => false
  | p :: ps' => if startswith url p then true else any_startswith url ps'
  end.

Definition prefix_allowed (c : Crawler) (url : string) : bool :=
  if negb (nonempty (prefixes c)) then true
  else any_startswith url (prefixes c).

(** [Crawler.can_fetch_robots] *)
Definition can_fetch_robots (w : World) (m : Machine) (url : string)
  : Machine * bool :=
  if negb (obey_robots (self m)) then (m, true)
  else
    let origin := url_origin url in
    match robots_cache (self m) !! origin with
    | Some rp => (m, can_fetch rp url)
    | None =>
        let rp := new_parser in
        match parser_read rp (robots_read w origin) with
        | None =>
            let m := emit (EvWarning "Failed to read robots.txt" origin) m in
            (with_self (fun c => set_robots_cache (<[origin := rp]> (robots_cache c)) c) m,
             true)
        | Some rp' =>
            (with_self (fun c => set_robots_cache (<[origin := rp']> (robots_cache c)) c) m,
             can_fetch rp' url)
        end
    end.

(** The [for h in hrefs] loop of [Crawler._extract_links_from_page]. *)
Fixpoint extract_loop (m : Machine) (hrefs out : list string)
  : Machine * list string :=
  match hrefs with
  | [] => (m, out)
  | h :: rest =>
      if negb (truthy h) then extract_loop m rest out
      else
        let normalized_h := normalize_url h in
        if (nonempty (prefixes (self m)) && negb (prefix_allowed (self m) normalized_h))%bool
        then extract_loop m rest out
        else if mem normalized_h (seen_urls (self m)) then extract_loop m rest out
        else if mem normalized_h (processed_urls (self m)) then extract_loop m rest out
        else
          (* Mark as seen *)
          let m := emit (EvSeen normalized_h)
                     (with_self (fun c => set_seen_urls ({[normalized_h]} ∪ seen_urls c) c) m) in
          extract_loop m rest (out ++ [normalized_h])
  end.

(** [Crawler._extract_links_from_page]; [hrefs] is what the page gave, or
    [None] when asking it raised. *)
Definition _extract_links_from_page (m : Machine) (hrefs : option (list string))
  : Machine * list string :=
  match hrefs with
  | Some hs => extract_loop m hs []
  | None => (m, [])
  end.

(** [Crawler._save_pdf_from_page]; the flag is [false] when it raised. *)
Definition _save_pdf_from_page (w : World) (it : nat) (m : Machine) (url : string)
  : Machine * bool :=
  let fname := artifact_name w it url in
  let h := sha1_hex w url in
  if pdf_ok w it url then
    let m := emit (EvPdf url) m in
    (save_history_entry w it m url fname h, true)
  else (emit (EvWarning "Failed to save PDF" url) m, false).

(** The [async with self.sem:] block of [Crawler._process_page_task];
    [None] when the task raised.  The wait of [domain_delay_wait] only
    delays the block (see [Politeness] below). *)
Definition page_block (w : World) (it : nat) (m : Machine) (url : string) (depth : Z)
  : Machine * option (list string) :=
  if negb (new_page_ok w it url) then (emit (EvRaise url depth) m, None)
  else
    let m := emit (EvOpen url depth) m in
    (* 1. Save current page as PDF *)
    let '(m, saved) := _save_pdf_from_page w it m url in
    let m := if saved then m else emit (EvWarning "skipping record" url) m in
    (* 2. Extract next-level links only when further exploration is needed *)
    let '(m, discovered_links) :=
      if Z.ltb depth (max_depth (self m))
      then _extract_links_from_page m (page_hrefs w it url)
      else (m, []) in
    (emit (EvReturn url depth discovered_links) m, Some discovered_links).

(** [Crawler._process_page_task] *)
Definition _process_page_task (w : World) (it : nat) (m : Machine)
    (url : string) (depth : Z) : Machine * option (list string) :=
  let '(m, ok) := can_fetch_robots w m url in
  if negb ok then (emit (EvReturn url depth []) m, Some [])
  else page_block w it m url depth.

(** [Crawler._refresh_page] *)
Definition _refresh_page (w : World) (c : Crawler) (it : nat) : bool :=
  if String.eqb (refresh_mode c) "pagination" then
    (existsb (click_ok w it) NEXT_PAGE_TEXTS || rel_next_ok w it)%bool
  else if String.eqb (refresh_mode c) "pull" then
    existsb (click_ok w it) LOAD_MORE_TEXTS
  else true.

(** ** One level of the frontier

    [Crawler.run] creates one task per URL of [current_level] and awaits
    them with [asyncio.gather].  A task runs without yielding up to its
    first real suspension, so the robots checks happen in creation order;
    the [async with self.sem:] blocks then run on in the order in which
    the event loop resumes them, which [rank] gives; [gather] returns the
    results in creation order.  A block is taken as one step: the filter
    loop has no [await] inside, and the sets and the mapping the blocks
    share only grow. *)

Definition Result := option (list string).

Fixpoint start_tasks (w : World) (m : Machine) (depth : Z)
    (tasks : list (nat * string))
  : Machine * (list (nat * string) * list (nat * Result)) :=
  match tasks with
  | [] => (m, ([], []))
  | (i, u) :: rest =>
      let '(m, ok) := can_fetch_robots w m u in
      if negb ok then
        let m := emit (EvReturn u depth []) m in
        let '(m, (pending, finished)) := start_tasks w m depth rest in
        (m, (pending, (i, Some []) :: finished))
      else
        let '(m, (pending, finished)) := start_tasks w m depth rest in
        (m, ((i, u) :: pending, finished))
  end.

Fixpoint resume_tasks (w : World) (it : nat) (m : Machine) (depth : Z)
    (pending : list (nat * string)) : Machine * list (nat * Result) :=
  match pending with
  | [] => (m, [])
  | (i, u) :: rest =>
      let '(m, r) := page_block w it m u depth in
      let '(m, finished) := resume_tasks w it m depth rest in
      (m, (i, r) :: finished)
  end.

Definition result_of (finished : list (nat * Result)) (i : nat) : Result :=
  match List.find (fun p => Nat.eqb (fst p) i) finished with
  | Some (_, r) => r
  | None => None
  end.

Definition resumed_before (w : World) (it : nat) (depth : Z)
    (a b : nat * string) : Prop :=
  (rank w it depth (snd a) <= rank w it depth (snd b))%nat.

#[global] Instance resumed_before_dec w it depth a b :
  Decision (resumed_before w it depth a b).
Proof. unfold resumed_before. apply _. Defined.

Definition number {A} (l : list A) : list (nat * A) :=
  combine (seq 0 (length l)) l.

Definition run_level (w : World) (it : nat) (m : Machine)
    (current_level : list string) (current_depth : Z)
  : Machine * list Result :=
  let m := fold_left (fun m u => emit (EvDispatch u current_depth) m) current_level m in
  let '(m, (pending, early)) := start_tasks w m current_depth (number current_level) in
  let order := merge_sort (resumed_before w it current_depth) pending in
  let '(m, late) := resume_tasks w it m current_depth order in
  (m, map (result_of (early ++ late)) (seq 0 (length current_level))).

(** The [for res in results] loop that fills [next_level]. *)
Fixpoint collect_links (results : list Result) : list string :=
  match results with
  | [] => []
  | Some links :: rest => links ++ collect_links rest
  | None :: rest => collect_links rest
  end.

(** ** [Crawler.run] *)

(** The [while current_level and current_depth <= self.max_depth] loop. *)
Fixpoint bfs (w : World) (it : nat) (fuel : nat) (m : Machine)
    (current_level : list string) (current_depth : Z) : Machine :=
  match fuel with
  | O => m
  | S fuel' =>
      if (nonempty current_level && Z.leb current_depth (max_depth (self m)))%bool then
        let '(m, results) := run_level w it m current_level current_depth in
        let next_level := collect_links results in
        bfs w it fuel' m next_level (current_depth + 1)
      else m
  end.

(** Enough fuel for every level the loop can reach from depth 1. *)
Definition levels (c : Crawler) : nat := Z.to_nat (max_depth c).

(** How a run stands: ended through the [break], or still in the loop
    with these values of [consecutive_no_new] and [iteration]. *)
Inductive Outcome :=
| Exhausted (m : Machine) (iteration : nat)
| Running (m : Machine) (consecutive_no_new : Z) (iteration : nat).

(** The [while True] loop; [fuel] bounds the number of rounds looked at. *)
Fixpoint portal_loop (w : World) (fuel : nat) (m : Machine)
    (consecutive_no_new : Z) (iteration : nat) : Outcome :=
  match fuel with
  | O => Running m consecutive_no_new iteration
  | S fuel' =>
      let iteration := S iteration in
      let '(m, links) := _extract_links_from_page m (portal_hrefs w iteration) in
      if negb (nonempty links) then
        let clicked := _refresh_page w (self m) iteration in
        if clicked then portal_loop w fuel' m 0 iteration
        else
          let consecutive_no_new := consecutive_no_new + 1 in
          if Z.geb consecutive_no_new (no_new_limit (self m))
          then Exhausted m iteration
          else portal_loop w fuel' m consecutive_no_new iteration
      else
        let m := bfs w iteration (levels (self m)) m links 1 in
        let clicked := _refresh_page w (self m) iteration in
        if clicked then portal_loop w fuel' m 0 iteration
        else portal_loop w fuel' m 0 iteration
  end.

(** What [Crawler.run] does before it enters the loop, on the crawler [c]
    and the file system [fs]. *)
Definition run_setup (w : World) (c : Crawler) (fs : gmap string string)
  : Machine :=
  let m := load_history w {| self := c; files := fs; log := [] |} in
  (* Mark portal as seen to prevent reprocessing *)
  emit (EvSeen (start_url (self m)))
    (with_self (fun c => set_seen_urls ({[start_url c]} ∪ seen_urls c) c) m).

(** [Crawler.run], followed for [fuel] rounds of the portal loop. *)
Definition run (w : World) (fuel : nat) (c : Crawler) (fs : gmap string string)
  : Outcome :=
  portal_loop w fuel (run_setup w c fs) 0 0.

Definition machine_of (o : Outcome) : Machine :=
  match o with
  | Exhausted m _ => m
  | Running m _ _ => m
  end.

(** ** Reading the log *)

Fixpoint seen_adds (l : list Event) : list string :=
  match l with
  | [] => []
  | EvSeen u :: rest => u :: seen_adds rest
  | _ :: rest => seen_adds rest
  end.

Fixpoint records (l : list Event) : list string :=
  match l with
  | [] => []
  | EvRecord u :: rest => u :: records rest
  | _ :: rest => records rest
  end.

(** The attributes [__init__] sets and no method assigns again. *)
Definition settings (c : Crawler) :=
  (start_url c, concurrency c, max_depth c, timeout_ms c, delay_s c,
   prefixes c, refresh_mode c, obey_robots c, no_new_limit c, deal_cookie c,
   history_file c).

(** What the link filter checks, against [P0], the history as
    [load_history] found it, and [c0], the crawler as constructed. *)
Definition passes (P0 : gset string) (c0 : Crawler) (u : string) : Prop :=
  (u ∉ P0) /\ prefix_allowed c0 u = true.

(** A URL that may enter a frontier level: it passed the filter and was
    marked as seen. *)
Definition eligible (P0 : gset string) (c0 : Crawler) (L : list Event)
    (u : string) : Prop :=
  passes P0 c0 u /\ EvSeen u ∈ L.

(** What each event of a log [L] must satisfy. *)
Definition event_ok (P0 : gset string) (c0 : Crawler) (L : list Event)
    (e : Event) : Prop :=
  match e with
  | EvDispatch u d =>
      1 <= d <= max_depth c0 /\ eligible P0 c0 L u /\
      (1 < d -> exists v links, EvReturn v (d - 1) links ∈ L /\ u ∈ links)
  | EvOpen u d => EvDispatch u d ∈ L
  | EvReturn u d links =>
      EvDispatch u d ∈ L /\ (max_depth c0 <= d -> links = []) /\
      Forall (eligible P0 c0 L) links
  | _ => True
  end.

(** The invariant of a run. *)
Record Inv (P0 : gset string) (c0 : Crawler) (m : Machine) : Prop := {
  inv_settings : settings (self m) = settings c0;
  inv_processed : P0 ⊆ processed_urls (self m);
  inv_seen_nodup : NoDup (seen_adds (log m));
  inv_seen_sub : forall u, u ∈ seen_adds (log m) -> u ∈ seen_urls (self m);
  inv_events : forall e, e ∈ log m -> event_ok P0 c0 (log m) e;
}.

Arguments inv_settings {P0 c0 m} _.
Arguments inv_processed {P0 c0 m} _.
Arguments inv_seen_nodup {P0 c0 m} _.
Arguments inv_seen_sub {P0 c0 m} _.
Arguments inv_events {P0 c0 m} _.

(** What one href goes through before it is emitted. *)
Definition emitted_from (c : Crawler) (hrefs : list string) (u : string) : Prop :=
  (exists h, h ∈ hrefs /\ truthy h = true /\ normalize_url h = u) /\
  prefix_allowed c u = true /\ (u ∉ seen_urls c) /\ (u ∉ processed_urls c).

(** * Politeness: [Crawler.domain_delay_wait]

  The method reads the clock and [per_domain_last], may suspend in
  [asyncio.sleep], and stores the clock reading when it goes on.  Tasks
  are interleaved by the event loop at the [await] only, so one call is
  two atomic steps when it sleeps and one when it does not. *)
Module Politeness.

(** [self.per_domain_last[domain]], a [defaultdict] with default [0.0]. *)
Definition last_of (per_domain_last : gmap string Q) (domain : string) : Q :=
  default 0%Q (per_domain_last !! domain).

(** The lines up to the [await]: the time to sleep, if any. *)
Definition wait_check (delay_s : Q) (per_domain_last : gmap string Q)
    (url : string) (now : Q) : option Q :=
  let domain := url_netloc url in
  let last := last_of per_domain_last domain in
  let elapsed := (now - last)%Q in
  if Qltb elapsed delay_s then Some (delay_s - elapsed)%Q else None.

(** The last line: [self.per_domain_last[domain] = time.time()]. *)
Definition wait_record (per_domain_last : gmap string Q) (url : string)
    (now : Q) : gmap string Q :=
  <[url_netloc url := now]> per_domain_last.

(** The event loop with the tasks that are inside [domain_delay_wait]:
    [sleeping] maps a task to its URL and the time its sleep is over,
    [released] lists the calls that have returned, newest first, with
    the domain and the time of return. *)
Record Loop := {
  clock : Q;
  per_domain_last : gmap string Q;
  sleeping : gmap nat (string * Q);
  released : list (nat * string * Q);
}.

Inductive Step :=
| Tick (dt : Q)                       (* time passes *)
| Enter (task : nat) (url : string)   (* a task calls domain_delay_wait *)
| Wake (task : nat).                  (* a sleeping task is resumed *)

Definition step (delay_s : Q) (s : Loop) (e : Step) : option Loop :=
  match e with
  | Tick dt =>
      if Qle_bool 0 dt then
        Some {| clock := (clock s + dt)%Q; per_domain_last := per_domain_last s;
                sleeping := sleeping s; released := released s |}
      else None
  | Enter task url =>
      match wait_check delay_s (per_domain_last s) url (clock s) with
      | Some d =>
          Some {| clock := clock s; per_domain_last := per_domain_last s;
                  sleeping := <[task := (url, (clock s + d)%Q)]> (sleeping s);
                  released := released s |}
      | None =>
          Some {| clock := clock s;
                  per_domain_last := wait_record (per_domain_last s) url (clock s);
                  sleeping := sleeping s;
                  released := (task, url_netloc url, clock s) :: released s |}
      end
  | Wake task =>
      match sleeping s !! task with
      | Some (url, due) =>
          if Qle_bool due (clock s) then
            Some {| clock := clock s;
                    per_domain_last := wait_record (per_domain_last s) url (clock s);
                    sleeping := delete task (sleeping s);
                    released := (task, url_netloc url, clock s) :: released s |}
          else None
      | None => None
      end
  end.

Fixpoint steps (delay_s : Q) (s : Loop) (es : list Step) : option Loop :=
  match es with
  | [] => Some s
  | e :: rest =>
      match step delay_s s e with
      | Some s' => steps delay_s s' rest
      | None => None
      end
  end.

(** A fresh crawler at clock reading [t]. *)
Definition fresh (t : Q) : Loop :=
  {| clock := t; per_domain_last := ∅; sleeping := ∅; released := [] |}.

(** Three tasks of one level, all for the domain [x.test], with
    [delay_s = 1] and [concurrency >= 3]. *)
Definition three_tasks : list Step :=
  [Enter 0 "https://x.test/a/1"; Enter 1 "https://x.test/a/2";
   Enter 2 "https://x.test/a/3"; Tick 1; Wake 1; Wake 2].

(** The times at which the calls of the tasks returned. *)
Definition release_times (s : Loop) : list (nat * string * Q) :=
  map (fun r => (fst (fst r), snd (fst r), Qred (snd r))) (rev (released s)).
End Politeness.

(** ** A small site to run the model on

    The portal lists two pages under the allowed prefix, one outside it,
    one only differing by a fragment, an empty href and a page that is
    already in the history; later rounds show nothing new.  The export of
    [a/2] fails and the history write made for [a/3] raises. *)
Definition demo_world : World :=
  {| portal_hrefs := fun i =>
       if Nat.eqb i 1 then
         Some ["https://x.test/a/1"; "https://x.test/b/1"; "https://x.test/a/2#top";
               ""; "https://x.test/a/h"; "https://x.test/a/1#again"]
       else Some ["https://x.test/a/1"];
     page_hrefs := fun _ _ =>
       Some ["https://x.test/a/3"; "https://x.test/a/1"; "https://x.test/a/h"];
     new_page_ok := fun _ _ => true;
     pdf_ok := fun _ u => negb (String.eqb u "https://x.test/a/2");
     artifact_name := fun _ u => "page_" ++ u ++ ".pdf";
     sha1_hex := fun u => u;
     utc_now := fun _ _ => "2025-01-01T00:00:00+00:00";
     click_ok := fun _ _ => false;
     rel_next_ok := fun _ => false;
     json_dumps := fun h => String.concat ";" (map fst (map_to_list h));
     json_loads := fun _ =>
       Some {[ "https://x.test/a/h" :=
                 {| filename := "h.pdf"; sha1 := "h"; saved_at := "2024" |} ]};
     io_result := fun _ u =>
       if String.eqb u "https://x.test/a/3" then Raises Opened true else Completes;
     robots_read := fun _ => ReadRaises;
     rank := fun _ _ u => String.length u |}.

Definition demo_config : Config :=
  {| cfg_start_url := "https://x.test/#main"; cfg_history_path := "history.json";
     cfg_concurrency := 0; cfg_max_depth := 2; cfg_timeout := 5;
     cfg_delay := (-1)%Q; cfg_refresh_mode := "PULL"; cfg_no_new_limit := 2;
     cfg_prefixes := PrefixStr "https://x.test/a/"; cfg_obey_robot := false;
     cfg_deal_cookie := false |}.

(** The same site crawled with [refresh_mode: none] and [obey_robot] on. *)
Definition demo_config_none : Config :=
  {| cfg_start_url := "https://x.test/#main"; cfg_history_path := "history.json";
     cfg_concurrency := 3; cfg_max_depth := 2; cfg_timeout := 30000;
     cfg_delay := 1%Q; cfg_refresh_mode := "None"; cfg_no_new_limit := 2;
     cfg_prefixes := PrefixList ["https://x.test/a/"]; cfg_obey_robot := true;
     cfg_deal_cookie := false |}.

Definition demo_files : gmap string string := {[ "history.json" := "{...}" ]}.

Definition demo_machine (cfg : Config) : Machine :=
  run_setup demo_world (init cfg) demo_files.

#[global] Instance Event_eq_dec : EqDecision Event.
Proof. solve_decision. Defined.

(** ** [sanitize_filename]

    A Python [str] is a sequence of code points; the title handed to
    [sanitize_filename] is taken as the list of their numbers. *)

Definition UNDERSCORE : N := 95.

(** The class of the first pattern: colon, slash, backslash, question
    mark, percent, asterisk, bar, double quote, the two angle brackets,
    line feed and carriage return. *)
Definition unsafe_char (c : N) : bool :=
  existsb (N.eqb c) [58; 47; 92; 63; 37; 42; 124; 34; 60; 62; 10; 13]%N.

(** [\s] in a [str] pattern: the code points for which [str.isspace]
    holds. *)
Definition is_space (c : N) : bool :=
  ((9 <=? c) && (c <=? 13) || (28 <=? c) && (c <=? 32) ||
   (c =? 133) || (c =? 160) || (c =? 5760) ||
   (8192 <=? c) && (c <=? 8202) || (c =? 8232) || (c =? 8233) ||
   (c =? 8239) || (c =? 8287) || (c =? 12288))%N%bool.

(** [re.sub(cls+, "_", s)]: every maximal run of characters of the class
    becomes one underscore; [in_run] tells that the run has begun. *)
Fixpoint sub_runs (cls : N -> bool) (in_run : bool) (s : list N) : list N :=
  match s with
  | [] => []
  | c :: rest =>
      if cls c then
        if in_run then sub_runs cls true rest
        else UNDERSCORE :: sub_runs cls true rest
      else c :: sub_runs cls false rest
  end.

(** [s.lstrip("_")] and [s.strip("_")] *)
Fixpoint lstrip_underscore (s : list N) : list N :=
  match s with
  | [] => []
  | c :: rest => if N.eqb c UNDERSCORE then lstrip_underscore rest else s
  end.

Definition strip_underscore (s : list N) : list N :=
  reverse (lstrip_underscore (reverse (lstrip_underscore s))).

(** ["page"] *)
Definition PAGE : list N := [112; 97; 103; 101]%N.

(** [sanitize_filename(s, max_len)] for [max_len >= 0]. *)
Definition sanitize_filename (s : list N) (max_len : nat) : list N :=
  let s := sub_runs unsafe_char false s in
  let s := sub_runs is_space false s in
  match strip_underscore (take max_len s) with
  | [] => PAGE
  | r => r
  end.

(** What a file name must not contain. *)
Definition name_char (c : N) : Prop := unsafe_char c = false /\ is_space c = false.

(** ** Variants of the demo site *)

Definition set_portal_hrefs (f : nat -> option (list string)) (w : World) : World :=
  {| portal_hrefs := f; page_hrefs := page_hrefs w; new_page_ok := new_page_ok w;
     pdf_ok := pdf_ok w; artifact_name := artifact_name w; sha1_hex := sha1_hex w;
     utc_now := utc_now w; click_ok := click_ok w; rel_next_ok := rel_next_ok w;
     json_dumps := json_dumps w; json_loads := json_loads w;
     io_result := io_result w; robots_read := robots_read w; rank := rank w |}.

Definition set_json_loads (f : string -> option (gmap string HistoryRecord))
    (w : World) : World :=
  {| portal_hrefs := portal_hrefs w; page_hrefs := page_hrefs w;
     new_page_ok := new_page_ok w; pdf_ok := pdf_ok w;
     artifact_name := artifact_name w; sha1_hex := sha1_hex w;
     utc_now := utc_now w; click_ok := click_ok w; rel_next_ok := rel_next_ok w;
     json_dumps := json_dumps w; json_loads := f;
     io_result := io_result w; robots_read := robots_read w; rank := rank w |}.

Definition set_robots_read (f : string -> ReadOutcome) (w : World) : World :=
  {| portal_hrefs := portal_hrefs w; page_hrefs := page_hrefs w;
     new_page_ok := new_page_ok w; pdf_ok := pdf_ok w;
     artifact_name := artifact_name w; sha1_hex := sha1_hex w;
     utc_now := utc_now w; click_ok := click_ok w; rel_next_ok := rel_next_ok w;
     json_dumps := json_dumps w; json_loads := json_loads w;
     io_result := io_result w; robots_read := f; rank := rank w |}.

(** The demo site with a portal that shows no link at all. *)
Definition quiet_world : World := set_portal_hrefs (fun _ => Some []) demo_world.

(** A world whose JSON reader gives back the mapping that holds the one
    entry made for [a/1], and a crawler that has not loaded anything. *)
Definition reload_world : World :=
  set_json_loads
    (fun _ => Some {[ "https://x.test/a/1" :=
                        {| filename := "a1.pdf"; sha1 := "a1";
                           saved_at := "2025-01-01T00:00:00+00:00" |} ]})
    demo_world.

Definition blank_machine : Machine :=
  {| self := init demo_config; files := ∅; log := [] |}.

(** The demo site when its robots.txt does not exist. *)
Definition no_robots_world : World :=
  set_robots_read (fun _ => ReadHTTPError 404) demo_world.

(** ** More readings of the log *)

(** The URLs for which a task was created, newest first. *)
Fixpoint dispatched (l : list Event) : list string :=
  match l with
  | [] => []
  | EvDispatch u _ :: rest => u :: dispatched rest
  | _ :: rest => dispatched rest
  end.

(** The URLs whose PDF export completed, newest first. *)
Fixpoint exported (l : list Event) : list string :=
  match l with
  | [] => []
  | EvPdf u :: rest => u :: exported rest
  | _ :: rest => exported rest
  end.

(** The links a task handed back; none when it raised. *)
Definition links_of (r : Result) : list string :=
  match r with Some links => links | None => [] end.

Fixpoint all_links (finished : list (nat * Result)) : list string :=
  match finished with
  | [] => []
  | (_, r) :: rest => (links_of r ++ all_links rest)%list
  end.

(** The bookkeeping of a run: [S0] and [P0] are [seen_urls] and
    [processed_urls] when the portal loop is entered, [pending] the links
    emitted but not yet dispatched, [todo] the URLs of the tasks that were
    created and have not run their block yet. *)
Record Once (S0 P0 : gset string) (m : Machine) (pending todo : list string)
  : Prop := {
  once_seen0 : S0 ⊆ seen_urls (self m);
  once_nodup : NoDup (pending ++ dispatched (log m));
  once_seen : forall u, u ∈ (pending ++ dispatched (log m))%list ->
               u ∈ seen_urls (self m) /\ (u ∉ S0);
  once_hist : processed_urls (self m) = dom (history (self m));
  once_proc : processed_urls (self m) = P0 ∪ list_to_set (records (log m));
  once_rec_nodup : NoDup (records (log m));
  once_rec_disp : forall u, u ∈ records (log m) -> u ∈ dispatched (log m);
  once_pdf : exported (log m) = records (log m);
  once_todo_nodup : NoDup todo;
  once_todo : forall u, u ∈ todo -> u ∈ dispatched (log m) /\ (u ∉ records (log m));
}.

Arguments once_seen0 {S0 P0 m pending todo} _.
Arguments once_nodup {S0 P0 m pending todo} _.
Arguments once_seen {S0 P0 m pending todo} _.
Arguments once_hist {S0 P0 m pending todo} _.
Arguments once_proc {S0 P0 m pending todo} _.
Arguments once_rec_nodup {S0 P0 m pending todo} _.
Arguments once_rec_disp {S0 P0 m pending todo} _.
Arguments once_pdf {S0 P0 m pending todo} _.
Arguments once_todo_nodup {S0 P0 m pending todo} _.
Arguments once_todo {S0 P0 m pending todo} _.

(** What of a machine the bookkeeping looks at. *)
Definition ledger (m : Machine) :=
  (seen_urls (self m), processed_urls (self m), history (self m),
   dispatched (log m), records (log m), exported (log m)).

(** The demo site when everything its portal links to is archived, is the
    portal itself, or lies outside the allow-list. *)
Definition archived_world : World :=
  set_portal_hrefs
    (fun _ => Some ["https://x.test/a/h"; "https://x.test/#top"; "";
                    "https://x.test/b/9"; "https://x.test/a/h#notes"])
    demo_world.

(** ** [domain_delay_wait], one task at a time

    With [concurrency = 1] the semaphore lets a task into its block only
    when the task before has left it, so a task enters
    [domain_delay_wait] only after the call of the one before has
    returned.  A [Visit] is one such call: the task enters [idle] seconds
    after the last event and, when it sleeps, is resumed [late] seconds
    after its sleep is over. *)
Record Visit := {
  idle : Q;
  visitor : nat;
  target : string;
  late : Q;
}.

Fixpoint serial (delay_s : Q) (s : Politeness.Loop) (visits : list Visit)
  : option Politeness.Loop :=
  match visits with
  | [] => Some s
  | v :: rest =>
      match Politeness.steps delay_s s
              [Politeness.Tick (idle v); Politeness.Enter (visitor v) (target v)] with
      | None => None
      | Some s1 =>
          match Politeness.sleeping s1 !! visitor v with
          | None => serial delay_s s1 rest
          | Some (_, due) =>
              match Politeness.steps delay_s s1
                      [Politeness.Tick (due - Politeness.clock s1 + late v);
                       Politeness.Wake (visitor v)] with
              | None => None
              | Some s2 => serial delay_s s2 rest
              end
          end
      end
  end.

(** Every return for a domain comes at least [delay_s] after each earlier
    return for that domain; the list holds the newest return first. *)
Fixpoint spaced (delay_s : Q) (rel : list (nat * string * Q)) : Prop :=
  match rel with
  | [] => True
  | (_, d, x) :: rest =>
      (forall t' x', (t', d, x') ∈ rest -> (x' + delay_s <= x)%Q) /\
      spaced delay_s rest
  end.

(** Four pages of two sites crawled one after the other, [delay_s = 1]. *)
Definition four_visits : list Visit :=
  [ {| idle := 0; visitor := 0; target := "https://x.test/a/1"; late := 0 |};
    {| idle := 1 # 4; visitor := 1; target := "https://x.test/a/2"; late := 1 # 10 |};
    {| idle := 0; visitor := 2; target := "https://y.test/"; late := 0 |};
    {| idle := 3; visitor := 3; target := "https://x.test/a/3"; late := 0 |} ].

Definition after_four_visits : Politeness.Loop :=
  default (Politeness.fresh 0) (serial 1 (Politeness.fresh 1000) four_visits).

Definition after_three_tasks : Politeness.Loop :=
  default (Politeness.fresh 0)
    (Politeness.steps 1 (Politeness.fresh 1000) Politeness.three_tasks).


(** Robots checking is off and the cache is what it was. *)
Definition robots_untouched (cache : gmap string RobotFileParser) (m : Machine) : Prop :=
  obey_robots (self m) = false /\ robots_cache (self m) = cache.

(** * Properties *)

(** Decidable facts about the demo site are settled by evaluation. *)
Ltac by_evaluation := apply (bool_decide_unpack _); vm_compute; exact I.


(** ** The settings stay as the constructor left them *)

Lemma settings_fields c c' :
  settings c = settings c' ->
  start_url c = start_url c' /\ concurrency c = concurrency c' /\
  max_depth c = max_depth c' /\ timeout_ms c = timeout_ms c' /\
  delay_s c = delay_s c' /\ prefixes c = prefixes c' /\
  refresh_mode c = refresh_mode c' /\ obey_robots c = obey_robots c' /\
  no_new_limit c = no_new_limit c' /\ deal_cookie c = deal_cookie c' /\
  history_file c = history_file c'.
Proof. unfold settings. intros H. injection H. intuition. Qed.

Lemma prefix_allowed_settings c c' u :
  settings c = settings c' -> prefix_allowed c u = prefix_allowed c' u.
Proof.
  intros H. apply settings_fields in H.
  unfold prefix_allowed. destruct H as (_ & _ & _ & _ & _ & -> & _). reflexivity.
Qed.

Lemma seen_adds_app l1 l2 :
  seen_adds (l1 ++ l2)%list = (seen_adds l1 ++ seen_adds l2)%list.
Proof.
  induction l1 as [|e l1 IH]; simpl; [done|].
  destruct e; simpl; by rewrite ?IH.
Qed.

Lemma seen_adds_elem l u : u ∈ seen_adds l <-> EvSeen u ∈ l.
Proof.
  induction l as [|e l IH]; simpl.
  - by rewrite !elem_of_nil.
  - destruct e; rewrite ?elem_of_cons, IH;
      intuition (try discriminate; try congruence).
Qed.

Lemma seen_adds_skip e l : seen_adds [e] = [] -> seen_adds (e :: l) = seen_adds l.
Proof. destruct e; simpl; intros H; done. Qed.

(** ** The invariant of a run

    [P0] is [processed_urls] as [load_history] left it and [c0] the
    crawler at that point. *)
Section Invariant.
Variable P0 : gset string.
Variable c0 : Crawler.

Local Abbreviation passes := (passes P0 c0).
Local Abbreviation eligible := (eligible P0 c0).
Local Abbreviation event_ok := (event_ok P0 c0).
Local Abbreviation Inv := (Inv P0 c0).

Lemma eligible_mono L L' u : L ⊆ L' -> eligible L u -> eligible L' u.
Proof. intros HL [Hp Hs]. split; [done|by apply HL]. Qed.

Lemma Forall_eligible_mono L L' l :
  L ⊆ L' -> Forall (eligible L) l -> Forall (eligible L') l.
Proof.
  intros HL H. eapply Forall_impl; [exact H|]. intros u. by apply eligible_mono.
Qed.

Lemma event_ok_mono L L' e : L ⊆ L' -> event_ok L e -> event_ok L' e.
Proof.
  intros HL. destruct e; simpl; auto.
  - intros (Hd & Hg & Hr). split; [done|]. split; [by eapply eligible_mono|].
    intros H1. destruct (Hr H1) as (v & links & Hin & Hu). eauto.
  - intros (Hd & Hm & Hf). split; [by apply HL|]. split; [done|].
    by eapply Forall_eligible_mono.
Qed.

(** An event other than a [seen_urls.add] joins the log. *)
Lemma Inv_emit m e :
  Inv m -> seen_adds [e] = [] -> event_ok (e :: log m) e -> Inv (emit e m).
Proof.
  intros [Hs Hp Hn Hsub He] Hne Hok.
  split; unfold emit; cbn [self log files]; rewrite ?(seen_adds_skip _ _ Hne); auto.
  intros e' [->|Hin]%elem_of_cons; [done|].
  eapply event_ok_mono; [|by apply He]. set_solver.
Qed.

Lemma emit_log_sub m e : log m ⊆ log (emit e m).
Proof. simpl. set_solver. Qed.

(** The crawler and the files may change as long as the settings stay
    and the two sets only grow. *)
Lemma Inv_update m c' fs' :
  Inv m -> settings c' = settings (self m) ->
  processed_urls (self m) ⊆ processed_urls c' ->
  seen_urls (self m) ⊆ seen_urls c' ->
  Inv {| self := c'; files := fs'; log := log m |}.
Proof.
  intros [Hs Hp Hn Hsub He] Hs' Hp' Hseen. split; cbn [self log files]; auto.
  - congruence.
  - set_solver.
Qed.

Lemma mem_false u s : mem u s = false -> u ∉ s.
Proof. unfold mem. by intros ?%bool_decide_eq_false. Qed.

Lemma Inv_seen m u :
  Inv m -> u ∉ seen_urls (self m) ->
  Inv (emit (EvSeen u)
         (with_self (fun c => set_seen_urls ({[u]} ∪ seen_urls c) c) m)).
Proof.
  intros [Hs Hp Hn Hsub He] Hu. split; cbn [emit with_self self log files seen_adds]; auto.
  - apply NoDup_cons. split; [|done]. intros Hin. by apply Hu, Hsub.
  - intros v [->|Hin]%elem_of_cons; cbn; [set_solver|]. apply Hsub in Hin. set_solver.
  - intros e [->|Hin]%elem_of_cons; [done|].
    eapply event_ok_mono; [|by apply He]. set_solver.
Qed.

Lemma filter_passed m u :
  Inv m ->
  (nonempty (prefixes (self m)) && negb (prefix_allowed (self m) u))%bool = false ->
  mem u (processed_urls (self m)) = false ->
  passes u.
Proof.
  intros HI Hp Hpr. split.
  - apply mem_false in Hpr. pose proof (inv_processed HI). set_solver.
  - rewrite <- (prefix_allowed_settings _ _ u (inv_settings HI)).
    unfold prefix_allowed in *.
    destruct (nonempty (prefixes (self m))); simpl in *; [|done].
    by destruct (any_startswith u (prefixes (self m))).
Qed.

Lemma extract_loop_Inv hrefs : forall m out m' out',
  Inv m -> extract_loop m hrefs out = (m', out') ->
  Inv m' /\ log m ⊆ log m' /\
  forall u, u ∈ out' -> u ∈ out \/ eligible (log m') u.
Proof.
  induction hrefs as [|h rest IH]; intros m out m' out' HI E; simpl in E.
  - injection E as <- <-. auto.
  - destruct (negb (truthy h)); [by eapply IH|].
    destruct (nonempty _ && negb _)%bool eqn:Hp; [by eapply IH|].
    destruct (mem _ (seen_urls _)) eqn:Hs; [by eapply IH|].
    destruct (mem _ (processed_urls _)) eqn:Hpr; [by eapply IH|].
    apply IH in E; [|by apply Inv_seen, mem_false].
    destruct E as (HI' & Hsub & Hout). split; [done|]. split.
    { etrans; [|exact Hsub]. cbn. by apply list_subseteq_cons. }
    intros u Hu.
    destruct (Hout u Hu) as [[Hin| ->%list_elem_of_singleton]%elem_of_app|He];
      [by left|right|by right].
    split; [exact (filter_passed m _ HI Hp Hpr)|]. apply Hsub. by left.
Qed.

Lemma extract_Inv m hrefs m' out :
  Inv m -> _extract_links_from_page m hrefs = (m', out) ->
  Inv m' /\ log m ⊆ log m' /\ Forall (eligible (log m')) out.
Proof.
  intros HI E. destruct hrefs as [hs|]; simpl in E.
  - apply extract_loop_Inv in E as (HI' & Hsub & Hout); [|done].
    split; [done|]. split; [done|]. apply Forall_forall. intros u Hu.
    destruct (Hout u Hu) as [Hin|?]; [|done]. by apply elem_of_nil in Hin.
  - injection E as <- <-. auto.
Qed.

Lemma save_history_entry_Inv w it m url fname h :
  Inv m ->
  Inv (save_history_entry w it m url fname h) /\
  log m ⊆ log (save_history_entry w it m url fname h).
Proof.
  intros HI. unfold save_history_entry.
  destruct (write_json_atomic _ _ _ _ _) as [fs warned].
  assert (HI1 : Inv (emit (EvRecord url) m)) by (by apply Inv_emit).
  destruct warned; split.
  - apply (Inv_update (emit _ (with_files fs (with_self _ (emit _ m))))); cbn; [|done|set_solver|done].
    apply Inv_emit; [|done|done].
    apply (Inv_update (emit (EvRecord url) m)); cbn; auto.
  - cbn. set_solver.
  - apply (Inv_update (with_files fs (with_self _ (emit _ m)))); cbn; [|done|set_solver|done].
    apply (Inv_update (emit (EvRecord url) m)); cbn; auto.
  - cbn. set_solver.
Qed.

Lemma save_pdf_Inv w it m url m' ok :
  Inv m -> _save_pdf_from_page w it m url = (m', ok) ->
  Inv m' /\ log m ⊆ log m'.
Proof.
  intros HI E. unfold _save_pdf_from_page in E.
  destruct (pdf_ok w it url); injection E as <- <-.
  - destruct (save_history_entry_Inv w it (emit (EvPdf url) m) url
                (artifact_name w it url) (sha1_hex w url)) as [H1 H2].
    { by apply Inv_emit. }
    split; [done|]. etrans; [|exact H2]. apply emit_log_sub.
  - split; [by apply Inv_emit|apply emit_log_sub].
Qed.

Lemma can_fetch_robots_Inv w m url m' ok :
  Inv m -> can_fetch_robots w m url = (m', ok) ->
  Inv m' /\ log m ⊆ log m'.
Proof.
  intros HI E. unfold can_fetch_robots in E.
  destruct (negb (obey_robots (self m))); [by injection E as <- <-|].
  destruct (robots_cache (self m) !! url_origin url); [by injection E as <- <-|].
  destruct (parser_read _ _); injection E as <- <-.
  - split; [|done]. apply (Inv_update m); cbn; auto.
  - split; [|cbn; set_solver].
    apply (Inv_update (emit (EvWarning "Failed to read robots.txt" (url_origin url)) m));
      cbn; auto.
    by apply Inv_emit.
Qed.

Lemma page_block_Inv w it m url depth m' r :
  Inv m -> EvDispatch url depth ∈ log m ->
  page_block w it m url depth = (m', r) ->
  Inv m' /\ log m ⊆ log m' /\
  forall links, r = Some links ->
    EvReturn url depth links ∈ log m' /\ Forall (eligible (log m')) links.
Proof.
  intros HI Hd E. unfold page_block in E.
  destruct (negb (new_page_ok w it url)).
  { injection E as <- <-. split; [by apply Inv_emit|]. split; [apply emit_log_sub|done]. }
  destruct (_save_pdf_from_page _ _ _ _) as [m1 saved] eqn:E1.
  apply save_pdf_Inv in E1 as [HI1 Hsub1];
    [|apply Inv_emit; [done|done|cbn; set_solver]].
  set (m2 := if saved then m1 else emit (EvWarning "skipping record" url) m1) in *.
  assert (HI2 : Inv m2) by (subst m2; destruct saved; [done|by apply Inv_emit]).
  assert (Hsub2 : log m ⊆ log m2).
  { subst m2. destruct saved; cbn in *; set_solver. }
  destruct (if Z.ltb depth (max_depth (self m2)) then _ else _) as [m3 links] eqn:E3.
  injection E as <- <-.
  assert (H3 : Inv m3 /\ log m2 ⊆ log m3 /\ Forall (eligible (log m3)) links /\
               (max_depth c0 <= depth -> links = [])).
  { destruct (Z.ltb_spec depth (max_depth (self m2))) as [Hlt|Hge].
    - apply extract_Inv in E3 as (? & ? & ?); [|done].
      split; [done|]. split; [done|]. split; [done|].
      pose proof (inv_settings HI2) as Hs. apply settings_fields in Hs. lia.
    - injection E3 as <- <-. split; [done|]. split; [done|]. split; [|done].
      apply Forall_nil_2. }
  destruct H3 as (HI3 & Hsub3 & Hel & Hmax).
  split; [|split].
  - apply Inv_emit; [done|done|]. cbn. split; [right; by apply Hsub3, Hsub2|].
    split; [done|]. eapply Forall_eligible_mono; [|done]. by apply list_subseteq_cons.
  - cbn. apply list_subseteq_cons. by etrans.
  - intros ? [= <-]. split; [by left|].
    eapply Forall_eligible_mono; [|done]. by apply list_subseteq_cons.
Qed.

(** *** One level *)

Lemma dispatch_Inv d level : forall m,
  Inv m -> 1 <= d <= max_depth c0 -> Forall (eligible (log m)) level ->
  (1 < d -> forall u, u ∈ level ->
     exists v links, EvReturn v (d - 1) links ∈ log m /\ u ∈ links) ->
  let m' := fold_left (fun m u => emit (EvDispatch u d) m) level m in
  Inv m' /\ log m ⊆ log m' /\ forall u, u ∈ level -> EvDispatch u d ∈ log m'.
Proof.
  induction level as [|u level IH]; intros m HI Hd Hel Hfrom; simpl.
  - split; [done|]. split; [done|]. intros u Hu. by apply elem_of_nil in Hu.
  - apply Forall_cons in Hel as [Hu Hel].
    destruct (IH (emit (EvDispatch u d) m)) as (HI' & Hsub & Hall).
    + apply Inv_emit; [done|done|]. cbn. split; [done|].
      split; [eapply eligible_mono; [|done]; by apply list_subseteq_cons|].
      intros H1. destruct (Hfrom H1 u) as (v & links & Hin & Hul); [by left|].
      exists v, links. split; [by right|done].
    + done.
    + eapply Forall_eligible_mono; [|done]. apply emit_log_sub.
    + intros H1 u' Hu'. destruct (Hfrom H1 u') as (v & links & Hin & Hul); [by right|].
      exists v, links. split; [by right|done].
    + split; [done|]. split.
      * etrans; [|exact Hsub]. apply emit_log_sub.
      * intros u' [->|Hu']%elem_of_cons; [|by apply Hall].
        apply Hsub. by left.
Qed.

Lemma start_tasks_Inv w d tasks : forall m m' pending finished,
  Inv m ->
  (forall i u, (i, u) ∈ tasks -> EvDispatch u d ∈ log m) ->
  start_tasks w m d tasks = (m', (pending, finished)) ->
  Inv m' /\ log m ⊆ log m' /\ pending ⊆ tasks /\
  forall i r, (i, r) ∈ finished -> r = Some [].
Proof.
  induction tasks as [|[i u] rest IH]; intros m m' pending finished HI Hd E; simpl in E.
  - injection E as <- <- <-. split; [done|]. split; [done|]. split; [done|].
    intros i r Hin. by apply elem_of_nil in Hin.
  - destruct (can_fetch_robots w m u) as [m1 ok] eqn:E1.
    apply can_fetch_robots_Inv in E1 as [HI1 Hsub1]; [|done].
    assert (Hd1 : EvDispatch u d ∈ log m1) by (apply Hsub1, (Hd i); by left).
    destruct ok; simpl in E.
    + destruct (start_tasks w m1 d rest) as [m2 [p2 f2]] eqn:E2.
      injection E as <- <- <-.
      apply IH in E2 as (HI2 & Hsub2 & Hp & Hf); [|done|].
      * split; [done|]. split; [by etrans|]. split; [|done].
        by apply list_subseteq_skip.
      * intros j v Hin. apply Hsub1, (Hd j). by right.
    + destruct (start_tasks w (emit (EvReturn u d []) m1) d rest) as [m2 [p2 f2]] eqn:E2.
      injection E as <- <- <-.
      apply IH in E2 as (HI2 & Hsub2 & Hp & Hf).
      * split; [done|]. split.
        { etrans; [exact Hsub1|]. etrans; [|exact Hsub2]. apply emit_log_sub. }
        split; [by apply list_subseteq_cons|].
        intros j r [[= -> ->]|Hin]%elem_of_cons; [done|by eapply Hf].
      * apply Inv_emit; [done|done|]. cbn. split; [by right|]. split; [done|].
        apply Forall_nil_2.
      * intros j v Hin. right. apply Hsub1, (Hd j). by right.
Qed.

Lemma resume_tasks_Inv w it d pending : forall m m' finished,
  Inv m ->
  (forall i u, (i, u) ∈ pending -> EvDispatch u d ∈ log m) ->
  resume_tasks w it m d pending = (m', finished) ->
  Inv m' /\ log m ⊆ log m' /\
  forall i links, (i, Some links) ∈ finished ->
    (exists v, EvReturn v d links ∈ log m') /\ Forall (eligible (log m')) links.
Proof.
  induction pending as [|[i u] rest IH]; intros m m' finished HI Hd E; simpl in E.
  - injection E as <- <-. split; [done|]. split; [done|].
    intros i links Hin. by apply elem_of_nil in Hin.
  - destruct (page_block w it m u d) as [m1 r] eqn:E1.
    apply page_block_Inv in E1 as (HI1 & Hsub1 & Hr); [|done|apply (Hd i); by left].
    destruct (resume_tasks w it m1 d rest) as [m2 f2] eqn:E2.
    injection E as <- <-.
    apply IH in E2 as (HI2 & Hsub2 & Hf); [|done|].
    + split; [done|]. split; [by etrans|].
      intros j links [[= -> <-]|Hin]%elem_of_cons; [|by eapply Hf].
      destruct (Hr links eq_refl) as [Hin Hel].
      split; [|by eapply Forall_eligible_mono].
      exists u. by apply Hsub2.
    + intros j v Hin. apply Hsub1, (Hd j). by right.
Qed.

Lemma result_of_elem finished i links :
  result_of finished i = Some links -> exists j, (j, Some links) ∈ finished.
Proof.
  unfold result_of. destruct (List.find _ finished) as [[j r]|] eqn:E; [|done].
  intros ->. apply find_some in E as [Hin _]. exists j. by apply list_elem_of_In.
Qed.

Lemma collect_links_elem results x :
  x ∈ collect_links results ->
  exists links, Some links ∈ results /\ x ∈ links.
Proof.
  induction results as [|[links|] rest IH]; simpl.
  - intros H. by apply elem_of_nil in H.
  - intros [Hx|Hx]%elem_of_app.
    + exists links. split; [by left|done].
    + destruct (IH Hx) as (l & Hl & Hxl). exists l. split; [by right|done].
  - intros Hx. destruct (IH Hx) as (l & Hl & Hxl). exists l. split; [by right|done].
Qed.

Lemma number_elem {A} (l : list A) i x : (i, x) ∈ number l -> x ∈ l.
Proof.
  unfold number. rewrite !list_elem_of_In. apply in_combine_r.
Qed.

Lemma run_level_Inv w it m level d m' results :
  Inv m -> 1 <= d <= max_depth c0 -> Forall (eligible (log m)) level ->
  (1 < d -> forall u, u ∈ level ->
     exists v links, EvReturn v (d - 1) links ∈ log m /\ u ∈ links) ->
  run_level w it m level d = (m', results) ->
  Inv m' /\ log m ⊆ log m' /\
  forall x, x ∈ collect_links results ->
    eligible (log m') x /\
    exists v links, EvReturn v d links ∈ log m' /\ x ∈ links.
Proof.
  intros HI Hd Hel Hfrom E. unfold run_level in E.
  destruct (dispatch_Inv d level m HI Hd Hel Hfrom) as (HI0 & Hsub0 & Hdisp).
  set (m0 := fold_left _ level m) in *.
  destruct (start_tasks w m0 d (number level)) as [m1 [pending early]] eqn:E1.
  apply start_tasks_Inv in E1 as (HI1 & Hsub1 & Hpend & Hearly); [|done|].
  2: { intros i u Hin. apply Hdisp. by eapply number_elem. }
  destruct (resume_tasks w it m1 d _) as [m2 late] eqn:E2.
  apply resume_tasks_Inv in E2 as (HI2 & Hsub2 & Hlate); [|done|].
  2: { intros i u Hin. rewrite merge_sort_Permutation in Hin.
       apply Hsub1, Hdisp. by eapply number_elem, Hpend. }
  injection E as <- <-. split; [done|]. split; [by do 2 (etrans; [eassumption|])|].
  intros x Hx. apply collect_links_elem in Hx as (links & Hin & Hxl).
  apply list_elem_of_fmap in Hin as (i & Hres & _).
  symmetry in Hres. apply result_of_elem in Hres as [j [Hj|Hj]%elem_of_app].
  - apply Hearly in Hj. injection Hj as ->. by apply elem_of_nil in Hxl.
  - destruct (Hlate _ _ Hj) as [[v Hv] Hall]. split.
    + by apply (proj1 (Forall_forall _ _) Hall).
    + by exists v, links.
Qed.

(** *** The breadth-first loop and the portal loop *)

Lemma bfs_Inv w it fuel : forall m level d,
  Inv m -> 1 <= d -> Forall (eligible (log m)) level ->
  (1 < d -> forall u, u ∈ level ->
     exists v links, EvReturn v (d - 1) links ∈ log m /\ u ∈ links) ->
  Inv (bfs w it fuel m level d) /\ log m ⊆ log (bfs w it fuel m level d).
Proof.
  induction fuel as [|fuel IH]; intros m level d HI Hd Hel Hfrom; simpl; [done|].
  destruct (nonempty level && Z.leb d (max_depth (self m)))%bool eqn:Hc; [|done].
  apply andb_true_iff in Hc as [_ Hle%Z.leb_le].
  pose proof (inv_settings HI) as Hs. apply settings_fields in Hs.
  destruct (run_level w it m level d) as [m1 results] eqn:E1.
  apply run_level_Inv in E1 as (HI1 & Hsub1 & Hnext); [|done|lia|done|done].
  destruct (IH m1 (collect_links results) (d + 1)) as [HI2 Hsub2]; [done|lia| | |].
  - apply Forall_forall. intros x Hx. by apply Hnext.
  - intros _ u Hu. replace (d + 1 - 1) with d by lia. by apply Hnext.
  - split; [done|by etrans].
Qed.

Lemma portal_loop_Inv w fuel : forall m cnt it,
  Inv m -> Inv (machine_of (portal_loop w fuel m cnt it)).
Proof.
  induction fuel as [|fuel IH]; intros m cnt it HI; simpl; [done|].
  destruct (_extract_links_from_page m _) as [m1 links] eqn:E1.
  apply extract_Inv in E1 as (HI1 & Hsub1 & Hel); [|done].
  destruct (negb (nonempty links)).
  - destruct (_refresh_page w (self m1) (S it)); [by apply IH|].
    destruct (Z.geb _ _); [done|by apply IH].
  - destruct (bfs_Inv w (S it) (levels (self m1)) m1 links 1) as [HI2 _];
      [done|lia|done|lia|].
    destruct (_refresh_page _ _ _); by apply IH.
Qed.
End Invariant.

Lemma run_setup_Inv w c fs :
  let m0 := load_history w {| self := c; files := fs; log := [] |} in
  Inv (processed_urls (self m0)) c (run_setup w c fs).
Proof.
  unfold run_setup, load_history. cbn [self files log].
  destruct (read_json w fs (history_file c)) as [data warned].
  destruct warned; split; cbn; try done.
  - apply NoDup_singleton.
  - intros u ->%list_elem_of_singleton. set_solver.
  - intros e [->|[->|H]%elem_of_cons]%elem_of_cons; [done|done|by apply elem_of_nil in H].
  - apply NoDup_singleton.
  - intros u ->%list_elem_of_singleton. set_solver.
  - intros e [->|H]%elem_of_cons; [done|by apply elem_of_nil in H].
Qed.

(** The invariant holds of every run, however far it has come. *)
Lemma run_Inv w fuel c fs :
  Inv (processed_urls (self (load_history w {| self := c; files := fs; log := [] |})))
      c (machine_of (run w fuel c fs)).
Proof. unfold run. apply portal_loop_Inv, run_setup_Inv. Qed.

(** The fuel [Crawler.run] hands to the breadth-first loop never cuts it
    short: one more unit changes nothing. *)
Lemma bfs_unfold w it fuel m level d :
  bfs w it (S fuel) m level d =
  if (nonempty level && Z.leb d (max_depth (self m)))%bool then
    let '(m, results) := run_level w it m level d in
    bfs w it fuel m (collect_links results) (d + 1)
  else m.
Proof. reflexivity. Qed.

Lemma bfs_fuel_enough P0 c0 w it fuel : forall m level d,
  Inv P0 c0 m -> 1 <= d -> Forall (eligible P0 c0 (log m)) level ->
  (1 < d -> forall u, u ∈ level ->
     exists v links, EvReturn v (d - 1) links ∈ log m /\ u ∈ links) ->
  (Z.to_nat (max_depth c0 + 1 - d) <= fuel)%nat ->
  bfs w it (S fuel) m level d = bfs w it fuel m level d.
Proof.
  induction fuel as [|fuel IH]; intros m level d HI Hd Hel Hfrom Hfuel;
    pose proof (inv_settings HI) as Hs; apply settings_fields in Hs.
  - rewrite bfs_unfold. simpl.
    destruct (Z.leb_spec d (max_depth (self m))); [lia|].
    by rewrite andb_false_r.
  - rewrite (bfs_unfold w it (S fuel)), (bfs_unfold w it fuel).
    destruct (nonempty level && Z.leb d (max_depth (self m)))%bool eqn:Hc; [|done].
    apply andb_true_iff in Hc as [_ Hle%Z.leb_le].
    destruct (run_level w it m level d) as [m1 results] eqn:E1.
    apply run_level_Inv with (P0 := P0) (c0 := c0) in E1 as (HI1 & Hsub1 & Hnext);
      [|done|lia|done|done].
    apply IH; [done|lia| | |lia].
    + apply Forall_forall. intros x Hx. by apply Hnext.
    + intros _ u Hu. replace (d + 1 - 1) with d by lia. by apply Hnext.
Qed.

(** * The claims *)

(** ** No duplicate processing *)

(** C3.  In a run of any length, on any crawler, file system and world,
    every URL is added to [seen_urls] at most once, and a URL that
    [load_history] put into [processed_urls] is never placed in a frontier
    level (no task is created for it) and never opened by the page
    processor. *)
Theorem C3_seen_once_history_never_dispatched w fuel c fs :
  let m0 := load_history w {| self := c; files := fs; log := [] |} in
  let m := machine_of (run w fuel c fs) in
  NoDup (seen_adds (log m)) /\
  forall u, u ∈ processed_urls (self m0) ->
    forall d, (EvDispatch u d ∉ log m) /\ (EvOpen u d ∉ log m).
Proof.
  intros m0 m. pose proof (run_Inv w fuel c fs) as HI. fold m0 m in HI.
  split; [by apply (inv_seen_nodup HI)|].
  intros u Hu d.
  assert (Hnd : EvDispatch u d ∉ log m).
  { intros Hin. apply (inv_events HI) in Hin as (_ & [[Hp _] _] & _). done. }
  split; [done|]. intros Hin. by apply (inv_events HI) in Hin.
Qed.

(** On the demo site the page [a/h] is in the history file and the portal
    links to it; it is never dispatched. *)
Lemma C3_witness :
  "https://x.test/a/h" ∈
    processed_urls (self (load_history demo_world
      {| self := init demo_config; files := demo_files; log := [] |})) /\
  forall d,
    (EvDispatch "https://x.test/a/h" d ∉
       log (machine_of (run demo_world 6 (init demo_config) demo_files))) /\
    (EvOpen "https://x.test/a/h" d ∉
       log (machine_of (run demo_world 6 (init demo_config) demo_files))).
Proof.
  assert (H : "https://x.test/a/h" ∈
    processed_urls (self (load_history demo_world
      {| self := init demo_config; files := demo_files; log := [] |})))
    by by_evaluation.
  split; [exact H|].
  exact (proj2 (C3_seen_once_history_never_dispatched demo_world 6
                  (init demo_config) demo_files) _ H).
Defined.

(** The run on the demo site, for reference: the links the portal shows
    twice are marked once, [b/1] and [a/h] are left out, and the run ends
    in round 3. *)
Example demo_run_log :
  rev (log (machine_of (run demo_world 6 (init demo_config) demo_files))) =
  [EvSeen "https://x.test/"; EvSeen "https://x.test/a/1";
   EvSeen "https://x.test/a/2"; EvDispatch "https://x.test/a/1" 1;
   EvDispatch "https://x.test/a/2" 1; EvOpen "https://x.test/a/1" 1;
   EvPdf "https://x.test/a/1"; EvRecord "https://x.test/a/1";
   EvSeen "https://x.test/a/3";
   EvReturn "https://x.test/a/1" 1 ["https://x.test/a/3"];
   EvOpen "https://x.test/a/2" 1;
   EvWarning "Failed to save PDF" "https://x.test/a/2";
   EvWarning "skipping record" "https://x.test/a/2";
   EvReturn "https://x.test/a/2" 1 [];
   EvDispatch "https://x.test/a/3" 2; EvOpen "https://x.test/a/3" 2;
   EvPdf "https://x.test/a/3"; EvRecord "https://x.test/a/3";
   EvWarning "Failed to write json" "history.json";
   EvReturn "https://x.test/a/3" 2 []].
Proof. vm_compute. reflexivity. Qed.

(** ** Depth bound *)

(** C4.  In a run of any length: a task is only created, and a page only
    opened, at a depth between 1 and [max_depth]; a task at depth
    [max_depth] (or beyond) returns no links; and a URL dispatched at a
    depth [d > 1] is one of the links returned by a task that was
    dispatched at depth [d - 1]. *)
Theorem C4_depth_bound w fuel c fs :
  let m := machine_of (run w fuel c fs) in
  (forall u d, EvDispatch u d ∈ log m \/ EvOpen u d ∈ log m ->
     1 <= d <= max_depth c) /\
  (forall u d links, EvReturn u d links ∈ log m -> max_depth c <= d -> links = []) /\
  (forall u d, EvDispatch u d ∈ log m -> 1 < d ->
     exists v links,
       EvDispatch v (d - 1) ∈ log m /\ EvReturn v (d - 1) links ∈ log m /\ u ∈ links).
Proof.
  intros m. pose proof (run_Inv w fuel c fs) as HI. fold m in HI.
  pose proof (inv_events HI) as Hev.
  assert (Hdisp : forall u d, EvDispatch u d ∈ log m -> 1 <= d <= max_depth c).
  { intros u d Hin. by apply Hev in Hin as (? & _). }
  split; [|split].
  - intros u d [Hin|Hin]; [by eapply Hdisp|]. apply Hev in Hin. by eapply Hdisp.
  - intros u d links Hin Hle. apply Hev in Hin as (_ & Hnil & _). by apply Hnil.
  - intros u d Hin Hd. apply Hev in Hin as (_ & _ & Hfrom).
    destruct (Hfrom Hd) as (v & links & Hret & Hu).
    exists v, links. split; [|done]. by apply Hev in Hret as (? & _).
Qed.

(** On the demo site [a/3] is dispatched at depth 2; it was returned by a
    page of depth 1. *)
Lemma C4_witness :
  exists v links,
    EvDispatch v (2 - 1) ∈ log (machine_of (run demo_world 6 (init demo_config) demo_files)) /\
    EvReturn v (2 - 1) links ∈ log (machine_of (run demo_world 6 (init demo_config) demo_files)) /\
    "https://x.test/a/3" ∈ links.
Proof.
  apply (proj2 (proj2 (C4_depth_bound demo_world 6 (init demo_config) demo_files))
           "https://x.test/a/3" 2); [by_evaluation|lia].
Defined.

(** ** The link filter *)



Lemma mem_true u s : mem u s = true -> u ∈ s.
Proof. unfold mem. by intros ?%bool_decide_eq_true. Qed.

Lemma extract_loop_exact hrefs : forall m out m' out',
  extract_loop m hrefs out = (m', out') ->
  exists new, out' = (out ++ new)%list /\ NoDup new /\
    (forall u, u ∈ new <-> emitted_from (self m) hrefs u) /\
    seen_urls (self m') = list_to_set new ∪ seen_urls (self m) /\
    seen_adds (log m') = (rev new ++ seen_adds (log m))%list /\
    settings (self m') = settings (self m) /\
    processed_urls (self m') = processed_urls (self m) /\
    history (self m') = history (self m) /\
    robots_cache (self m') = robots_cache (self m) /\
    files m' = files m.
Proof.
  induction hrefs as [|h rest IH]; intros m out m' out' E; simpl in E.
  - injection E as <- <-. exists []. split; [by rewrite app_nil_r|].
    split; [apply NoDup_nil_2|]. split.
    { intros u. split; [intros H; by apply elem_of_nil in H|].
      intros ((h & Hh & _) & _). by apply elem_of_nil in Hh. }
    split; [cbn; set_solver|]. done.
  - assert (Hskip : forall u, emitted_from (self m) (h :: rest) u ->
              normalize_url h <> u \/ truthy h = false ->
              emitted_from (self m) rest u).
    { intros u ((h' & [->|Hh']%elem_of_cons & Ht & Hn) & Hrest) Hne.
      - destruct Hne; congruence.
      - split; [by exists h'|done]. }
    assert (Hweak : forall u, emitted_from (self m) rest u ->
              emitted_from (self m) (h :: rest) u).
    { intros u ((h' & Hh' & Ht & Hn) & Hrest). split; [|done].
      exists h'. split; [by right|done]. }
    destruct (truthy h) eqn:Ht; simpl in E.
    2: { apply IH in E as (new & -> & Hnd & Hnew & Hrest). exists new.
         split; [done|]. split; [done|]. split; [|done].
         intros u. rewrite Hnew. split; [by apply Hweak|].
         intros H. apply Hskip; [done|by right]. }
    destruct (nonempty _ && negb _)%bool eqn:Hp.
    { apply IH in E as (new & -> & Hnd & Hnew & Hrest). exists new.
      split; [done|]. split; [done|]. split; [|done].
      intros u. rewrite Hnew. split; [by apply Hweak|].
      intros H. apply Hskip; [done|left]. intros <-.
      destruct H as (_ & Hpa & _). rewrite Hpa in Hp. simpl in Hp.
      by rewrite andb_false_r in Hp. }
    destruct (mem _ (seen_urls _)) eqn:Hs.
    { apply IH in E as (new & -> & Hnd & Hnew & Hrest). exists new.
      split; [done|]. split; [done|]. split; [|done].
      intros u. rewrite Hnew. split; [by apply Hweak|].
      intros H. apply Hskip; [done|left]. intros <-.
      destruct H as (_ & _ & Hns & _). by apply Hns, mem_true. }
    destruct (mem _ (processed_urls _)) eqn:Hpr.
    { apply IH in E as (new & -> & Hnd & Hnew & Hrest). exists new.
      split; [done|]. split; [done|]. split; [|done].
      intros u. rewrite Hnew. split; [by apply Hweak|].
      intros H. apply Hskip; [done|left]. intros <-.
      destruct H as (_ & _ & _ & Hnp). by apply Hnp, mem_true. }
    apply mem_false in Hs, Hpr.
    apply IH in E as (new & -> & Hnd & Hnew & Hseen & Hadds & Hset & Hproc & Hrest).
    cbn [emit with_self self log files seen_adds set_seen_urls seen_urls processed_urls
         settings] in *.
    exists (normalize_url h :: new). rewrite <- app_assoc. split; [done|].
    assert (Hfresh : normalize_url h ∉ new).
    { intros Hin. apply Hnew in Hin as (_ & _ & Hns & _). cbn in Hns. set_solver. }
    split; [by apply NoDup_cons|]. split; [|split; [|split]].
    + intros u. rewrite elem_of_cons, Hnew. split.
      * intros [->|((h' & Hh' & Ht' & Hn') & Hpa & Hns & Hnp)].
        -- split; [exists h; split; [by left|done]|]. split; [|done].
           unfold prefix_allowed in *. destruct (nonempty (prefixes (self m))); [|done].
           simpl in Hp. by destruct (any_startswith _ _).
        -- split; [exists h'; split; [by right|done]|]. cbn in *. split; [done|].
           split; [set_solver|done].
      * intros ((h' & [->|Hh']%elem_of_cons & Ht' & Hn') & Hpa & Hns & Hnp); [by left|].
        destruct (decide (u = normalize_url h)) as [->|Hne]; [by left|right].
        split; [by exists h'|]. cbn. split; [done|]. split; [set_solver|done].
    + rewrite Hseen. cbn. set_solver.
    + rewrite Hadds. cbn. by rewrite <- app_assoc.
    + done.
Qed.

Lemma extract_exact m hrefs m' out :
  _extract_links_from_page m (Some hrefs) = (m', out) ->
  NoDup out /\
  (forall u, u ∈ out <-> emitted_from (self m) hrefs u) /\
  seen_urls (self m') = list_to_set out ∪ seen_urls (self m).
Proof.
  intros E. simpl in E.
  apply extract_loop_exact in E as (new & -> & Hnd & Hnew & Hseen & _).
  by rewrite app_nil_l.
Qed.



(** ** The history store *)

Lemma tmp_path_ne path : tmp_path path <> path.
Proof.
  unfold tmp_path. induction path as [|a path IH]; simpl; [done|].
  intros [= H]. by apply IH.
Qed.

Lemma files_at_target p fs path content :
  files_at p fs path content !! path =
  match p with Replaced => Some content | _ => fs !! path end.
Proof.
  pose proof (tmp_path_ne path) as Hne.
  destruct p; unfold files_at; simpl; rewrite ?lookup_insert_eq;
    rewrite ?lookup_insert_eq, ?lookup_insert_ne; done.
Qed.

Lemma write_json_atomic_target w r fs path data :
  fst (write_json_atomic w r fs path data) !! path =
  match r with
  | Completes | Raises Replaced _ => Some (json_dumps w data)
  | Raises _ _ => fs !! path
  end.
Proof.
  pose proof (tmp_path_ne path) as Hne.
  unfold write_json_atomic.
  destruct r as [|p ok]; cbn [fst]; [by rewrite files_at_target|].
  destruct p; cbn [fst]; try (by rewrite files_at_target);
    unfold cleanup_tmp; destruct ok;
    rewrite ?lookup_delete_ne by done; by rewrite files_at_target.
Qed.

Lemma save_history_entry_fields w it m url fname h :
  let m' := save_history_entry w it m url fname h in
  let entry := {| filename := fname; sha1 := h; saved_at := utc_now w it url |} in
  history (self m') = <[url := entry]> (history (self m)) /\
  processed_urls (self m') = {[url]} ∪ processed_urls (self m) /\
  seen_urls (self m') = seen_urls (self m) /\
  settings (self m') = settings (self m) /\
  records (log m') = url :: records (log m) /\
  files m' =
    fst (write_json_atomic w (io_result w it url) (files m) (history_file (self m))
           (<[url := entry]> (history (self m)))) /\
  (snd (write_json_atomic w (io_result w it url) (files m) (history_file (self m))
          (<[url := entry]> (history (self m)))) = true ->
   EvWarning "Failed to write json" (history_file (self m)) ∈ log m').
Proof.
  unfold save_history_entry. cbn [emit with_self self files log set_history history_file history].
  destruct (write_json_atomic _ _ _ _ _) as [fs' warned]. cbn [fst snd].
  destruct warned; cbn; repeat split; try done. intros _. by left.
Qed.


(** ** Recording a page *)

Lemma extract_loop_records hrefs : forall m out,
  records (log (fst (extract_loop m hrefs out))) = records (log m).
Proof.
  induction hrefs as [|h rest IH]; intros m out; simpl; [done|].
  destruct (negb (truthy h)); [apply IH|].
  destruct (nonempty _ && negb _)%bool; [apply IH|].
  destruct (mem _ (seen_urls _)); [apply IH|].
  destruct (mem _ (processed_urls _)); [apply IH|].
  by rewrite IH.
Qed.

Lemma extract_frame m hrefs :
  let m' := fst (_extract_links_from_page m hrefs) in
  history (self m') = history (self m) /\
  processed_urls (self m') = processed_urls (self m) /\
  files m' = files m /\
  settings (self m') = settings (self m) /\
  records (log m') = records (log m).
Proof.
  destruct hrefs as [hs|]; simpl; [|done].
  pose proof (extract_loop_records hs m []) as Hr.
  destruct (extract_loop m hs []) as [m' out] eqn:E.
  apply extract_loop_exact in E as (new & _ & _ & _ & _ & _ & Hs & Hp & Hh & _ & Hf).
  done.
Qed.

Lemma extract_never_processed m hrefs u :
  u ∈ processed_urls (self m) -> u ∉ snd (_extract_links_from_page m hrefs).
Proof.
  intros Hu Hin. destruct hrefs as [hs|]; simpl in Hin; [|by apply elem_of_nil in Hin].
  destruct (extract_loop m hs []) as [m' out] eqn:E.
  apply extract_loop_exact in E as (new & -> & _ & Hnew & _).
  rewrite app_nil_l in Hin. by apply Hnew in Hin as (_ & _ & _ & Hnp).
Qed.

(** C9.  [save_history_entry] always puts the entry into the in-memory
    mapping and the URL into [processed_urls], whatever happens to the
    write.  When the write raises before the replace, the history file
    keeps its former content, a warning is logged and the method returns
    all the same; from then on no extraction emits the URL. *)
Theorem C9_memory_advances_when_write_fails w it m url fname h :
  let m' := save_history_entry w it m url fname h in
  let entry := {| filename := fname; sha1 := h; saved_at := utc_now w it url |} in
  history (self m') !! url = Some entry /\
  url ∈ processed_urls (self m') /\
  (forall p unlink_ok,
     io_result w it url = Raises p unlink_ok -> p <> Replaced ->
     files m' !! history_file (self m) = files m !! history_file (self m) /\
     EvWarning "Failed to write json" (history_file (self m)) ∈ log m') /\
  (forall m'' hrefs,
     processed_urls (self m') ⊆ processed_urls (self m'') ->
     url ∉ snd (_extract_links_from_page m'' hrefs)).
Proof.
  intros m' entry.
  destruct (save_history_entry_fields w it m url fname h)
    as (Hh & Hp & _ & _ & _ & Hf & Hw). fold m' entry in Hh, Hp, Hf, Hw.
  split; [by rewrite Hh, lookup_insert_eq|].
  split; [rewrite Hp; set_solver|]. split.
  - intros p ok Hio Hne. rewrite Hio in Hf, Hw. split.
    + rewrite Hf, write_json_atomic_target. by destruct p.
    + apply Hw. by destruct p.
  - intros m'' hrefs Hsub. apply extract_never_processed. apply Hsub.
    rewrite Hp. set_solver.
Qed.

(** On the demo site the write made for [a/3] raises right after the
    temporary file was opened. *)
Lemma C9_witness :
  let m := demo_machine demo_config in
  let m' := save_history_entry demo_world 1 m "https://x.test/a/3" "a3.pdf" "a3" in
  (files m' !! history_file (self m) = files m !! history_file (self m) /\
   EvWarning "Failed to write json" (history_file (self m)) ∈ log m') /\
  "https://x.test/a/3" ∉
    snd (_extract_links_from_page m' (Some ["https://x.test/a/3"])).
Proof.
  intros m m'.
  destruct (C9_memory_advances_when_write_fails demo_world 1 m
              "https://x.test/a/3" "a3.pdf" "a3") as (_ & _ & Hfail & Hlater).
  split.
  - apply (Hfail Opened true); [reflexivity|discriminate].
  - apply Hlater. reflexivity.
Defined.

(** C6.  In the page processor the record step runs exactly when the PDF
    export succeeds: the URLs recorded by [page_block] are [url] when a
    page could be opened and the export succeeded, and none otherwise.
    When the export fails or times out, the history mapping,
    [processed_urls] and the files are left as they were; when it
    succeeds, the URL has a history entry and is in [processed_urls]. *)
Theorem C6_record_iff_export w it m url depth :
  let m' := fst (page_block w it m url depth) in
  let entry := {| filename := artifact_name w it url; sha1 := sha1_hex w url;
                  saved_at := utc_now w it url |} in
  records (log m') =
    ((if (new_page_ok w it url && pdf_ok w it url)%bool then [url] else [])
       ++ records (log m))%list /\
  snd (_save_pdf_from_page w it m url) = pdf_ok w it url /\
  (pdf_ok w it url = false ->
     history (self m') = history (self m) /\
     processed_urls (self m') = processed_urls (self m) /\
     files m' = files m) /\
  (new_page_ok w it url = true -> pdf_ok w it url = true ->
     history (self m') !! url = Some entry /\ url ∈ processed_urls (self m')).
Proof.
  intros m' entry. subst m'. unfold page_block, _save_pdf_from_page.
  destruct (new_page_ok w it url); simpl.
  2: { destruct (pdf_ok w it url); simpl; repeat split; done. }
  destruct (pdf_ok w it url) eqn:Hpdf; simpl.
  - set (m1 := save_history_entry w it (emit (EvPdf url) (emit (EvOpen url depth) m))
                 url (artifact_name w it url) (sha1_hex w url)).
    destruct (save_history_entry_fields w it (emit (EvPdf url) (emit (EvOpen url depth) m))
                url (artifact_name w it url) (sha1_hex w url))
      as (Hh & Hp & _ & Hs & Hr & _). fold m1 in Hh, Hp, Hs, Hr.
    set (x := if Z.ltb depth (max_depth (self m1)) then _ else _).
    assert (Hx : history (self (fst x)) = history (self m1) /\
                 processed_urls (self (fst x)) = processed_urls (self m1) /\
                 records (log (fst x)) = records (log m1)).
    { subst x. destruct (Z.ltb depth _); [|done].
      by destruct (extract_frame m1 (page_hrefs w it url)) as (? & ? & _ & _ & ?). }
    destruct x as [m2 links]. cbn [fst snd] in *. destruct Hx as (Hh2 & Hp2 & Hr2).
    cbn. split; [by rewrite Hr2, Hr|]. split; [done|]. split; [done|].
    intros _ _. rewrite Hh2, Hp2, Hh, Hp. split; [by rewrite lookup_insert_eq|set_solver].
  - set (m1 := emit _ (emit _ (emit _ m))).
    set (x := if Z.ltb depth _ then _ else _).
    assert (Hx : history (self (fst x)) = history (self m) /\
                 processed_urls (self (fst x)) = processed_urls (self m) /\
                 files (fst x) = files m /\
                 records (log (fst x)) = records (log m)).
    { subst x. destruct (Z.ltb depth _); [|done].
      by destruct (extract_frame m1 (page_hrefs w it url)) as (? & ? & ? & _ & ?). }
    destruct x as [m2 links]. cbn [fst snd] in *. destruct Hx as (Hh2 & Hp2 & Hf2 & Hr2).
    cbn. split; [done|]. split; [done|]. split; [done|]. intros _ [=].
Qed.

(** On the demo site the export of [a/2] fails and that of [a/1]
    succeeds. *)
Lemma C6_witness :
  let m := demo_machine demo_config in
  let failed := fst (page_block demo_world 1 m "https://x.test/a/2" 1) in
  let saved := fst (page_block demo_world 1 m "https://x.test/a/1" 1) in
  (history (self failed) = history (self m) /\
   processed_urls (self failed) = processed_urls (self m) /\
   files failed = files m) /\
  (history (self saved) !! "https://x.test/a/1" =
     Some {| filename := artifact_name demo_world 1 "https://x.test/a/1";
             sha1 := sha1_hex demo_world "https://x.test/a/1";
             saved_at := utc_now demo_world 1 "https://x.test/a/1" |} /\
   "https://x.test/a/1" ∈ processed_urls (self saved)).
Proof.
  intros m failed saved. split.
  - apply (proj1 (proj2 (proj2
      (C6_record_iff_export demo_world 1 m "https://x.test/a/2" 1)))). reflexivity.
  - apply (proj2 (proj2 (proj2
      (C6_record_iff_export demo_world 1 m "https://x.test/a/1" 1)))); reflexivity.
Defined.

(** ** The constructor *)

Lemma py_max_Z_spec a b : py_max_Z a b = Z.max a b.
Proof. unfold py_max_Z. destruct (Z.ltb_spec a b); lia. Qed.

Lemma py_max_Q_nonneg d : (0 <= py_max_Q 0 d)%Q.
Proof.
  unfold py_max_Q, Qltb. destruct (Qle_bool d 0) eqn:E; simpl.
  - apply Qle_refl.
  - apply Qlt_le_weak, Qnot_le_lt. intros H. apply Qle_bool_iff in H. congruence.
Qed.

(** C10.  Whatever numbers the configuration holds, the constructor
    raises none of them as an error: it stores [max(1, concurrency)],
    [max(1, max_depth)], [max(1000, timeout)], [max(0.0, delay)] and
    [max(1, no_new_limit)], so the five lower bounds hold of the new
    crawler; and a run of any length leaves the five attributes as the
    constructor set them. *)
Theorem C10_constructor_clamps cfg w fuel fs :
  let c := init cfg in
  let c' := self (machine_of (run w fuel c fs)) in
  (concurrency c = Z.max 1 (cfg_concurrency cfg) /\
   max_depth c = Z.max 1 (cfg_max_depth cfg) /\
   timeout_ms c = Z.max 1000 (cfg_timeout cfg) /\
   delay_s c = (if Qltb 0 (cfg_delay cfg) then cfg_delay cfg else 0%Q) /\
   no_new_limit c = Z.max 1 (cfg_no_new_limit cfg)) /\
  (1 <= concurrency c /\ 1 <= max_depth c /\ 1000 <= timeout_ms c /\
   (0 <= delay_s c)%Q /\ 1 <= no_new_limit c) /\
  (concurrency c' = concurrency c /\ max_depth c' = max_depth c /\
   timeout_ms c' = timeout_ms c /\ delay_s c' = delay_s c /\
   no_new_limit c' = no_new_limit c).
Proof.
  intros c c'. split; [|split].
  - subst c. cbn. by rewrite !py_max_Z_spec.
  - subst c. cbn. rewrite !py_max_Z_spec.
    pose proof (py_max_Q_nonneg (cfg_delay cfg)). repeat split; try lia. done.
  - pose proof (inv_settings (run_Inv w fuel c fs)) as Hs.
    apply settings_fields in Hs. fold c' in Hs. by intuition.
Qed.

(** ** Robots *)

(** A server error on robots.txt is swallowed by [read()] itself, and the
    parser then refuses every URL from the first query on. *)
Lemma robots_server_error_blocks w m url code :
  obey_robots (self m) = true ->
  robots_cache (self m) !! url_origin url = None ->
  robots_read w (url_origin url) = ReadHTTPError code ->
  500 <= code ->
  snd (can_fetch_robots w m url) = false.
Proof.
  intros Ho Hc Hr Hcode. unfold can_fetch_robots. rewrite Ho, Hc, Hr. simpl.
  destruct (Z.eqb_spec code 401); [lia|]. destruct (Z.eqb_spec code 403); [lia|].
  simpl. destruct (Z.ltb_spec code 500); [lia|]. by rewrite andb_false_r.
Qed.

(** C7.  With [obey_robots] on and a robots.txt read that raises for an
    origin not yet in the cache, the first query logs the warning and
    answers [True]; the parser it leaves in the cache has never been read,
    and every later query for that origin is answered by that parser's
    [can_fetch], which is [False]. *)
Theorem C7_failed_read_allows_first_blocks_rest w m url1 url2 :
  obey_robots (self m) = true ->
  robots_cache (self m) !! url_origin url1 = None ->
  robots_read w (url_origin url1) = ReadRaises ->
  url_origin url2 = url_origin url1 ->
  let m1 := fst (can_fetch_robots w m url1) in
  snd (can_fetch_robots w m url1) = true /\
  EvWarning "Failed to read robots.txt" (url_origin url1) ∈ log m1 /\
  robots_cache (self m1) !! url_origin url1 = Some new_parser /\
  snd (can_fetch_robots w m1 url2) = false /\
  fst (can_fetch_robots w m1 url2) = m1.
Proof.
  intros Ho Hc Hr Ho2 m1.
  assert (E : can_fetch_robots w m url1 =
    (with_self (fun c => set_robots_cache (<[url_origin url1 := new_parser]> (robots_cache c)) c)
       (emit (EvWarning "Failed to read robots.txt" (url_origin url1)) m), true)).
  { unfold can_fetch_robots. by rewrite Ho, Hc, Hr. }
  subst m1. rewrite E. cbn [fst snd].
  split; [done|]. split; [apply elem_of_cons; by left|].
  split; [cbn; by rewrite lookup_insert_eq|].
  unfold can_fetch_robots.
  cbn [self with_self emit set_robots_cache obey_robots robots_cache].
  by rewrite Ho, Ho2, lookup_insert_eq.
Qed.

(** On the demo site every robots.txt read raises: [a/1] is let through,
    [a/2], asked about next, is refused. *)
Lemma C7_witness :
  let m := demo_machine demo_config_none in
  let m1 := fst (can_fetch_robots demo_world m "https://x.test/a/1") in
  snd (can_fetch_robots demo_world m "https://x.test/a/1") = true /\
  EvWarning "Failed to read robots.txt" (url_origin "https://x.test/a/1") ∈ log m1 /\
  robots_cache (self m1) !! url_origin "https://x.test/a/1" = Some new_parser /\
  snd (can_fetch_robots demo_world m1 "https://x.test/a/2") = false /\
  fst (can_fetch_robots demo_world m1 "https://x.test/a/2") = m1.
Proof.
  apply (C7_failed_read_allows_first_blocks_rest demo_world
           (demo_machine demo_config_none)
           "https://x.test/a/1" "https://x.test/a/2"); reflexivity.
Defined.

(** The same in a whole run: of the two pages of the first level only the
    first is opened, and the page it links to is refused as well. *)
Example demo_run_robots :
  rev (log (machine_of (run demo_world 2 (init demo_config_none) demo_files))) =
  [EvSeen "https://x.test/"; EvSeen "https://x.test/a/1";
   EvSeen "https://x.test/a/2"; EvDispatch "https://x.test/a/1" 1;
   EvDispatch "https://x.test/a/2" 1;
   EvWarning "Failed to read robots.txt" "https://x.test";
   EvReturn "https://x.test/a/2" 1 []; EvOpen "https://x.test/a/1" 1;
   EvPdf "https://x.test/a/1"; EvRecord "https://x.test/a/1";
   EvSeen "https://x.test/a/3";
   EvReturn "https://x.test/a/1" 1 ["https://x.test/a/3"];
   EvDispatch "https://x.test/a/3" 2; EvReturn "https://x.test/a/3" 2 []].
Proof. vm_compute. reflexivity. Qed.

(** ** The portal loop and its counter *)

Lemma refresh_page_none w c it : refresh_mode c = "none" -> _refresh_page w c it = true.
Proof. intros H. unfold _refresh_page. by rewrite H. Qed.

Lemma portal_loop_none P0 c0 w fuel : forall m it,
  Inv P0 c0 m -> refresh_mode c0 = "none" ->
  exists m', portal_loop w fuel m 0 it = Running m' 0 (fuel + it)%nat.
Proof.
  induction fuel as [|fuel IH]; intros m it HI Hnone; simpl; [by exists m|].
  destruct (_extract_links_from_page m _) as [m1 links] eqn:E1.
  apply extract_Inv with (P0 := P0) (c0 := c0) in E1 as (HI1 & _ & Hel); [|done].
  assert (Hmode : forall m', Inv P0 c0 m' -> refresh_mode (self m') = "none").
  { intros m' HI'. pose proof (inv_settings HI') as Hs.
    apply settings_fields in Hs. destruct Hs as (_ & _ & _ & _ & _ & _ & -> & _). done. }
  replace (S (fuel + it))%nat with (fuel + S it)%nat by lia.
  destruct (negb (nonempty links)).
  - rewrite refresh_page_none by auto. by apply IH.
  - destruct (bfs_Inv P0 c0 w (S it) (levels (self m1)) m1 links 1) as [HI2 _];
      [done|lia|done|lia|].
    rewrite refresh_page_none by auto. by apply IH.
Qed.

(** C1.  With [refresh_mode = "none"] the run never takes the [break] of
    the portal loop: however many rounds are followed, on any portal
    (one that never yields a link included), the run is still in the loop
    and [consecutive_no_new] is 0, because [_refresh_page] returns [True]
    in every round and the counter is reset before it can be compared
    with [no_new_limit]. *)
Theorem C1_none_mode_never_exhausted w fuel c fs :
  refresh_mode c = "none" ->
  (exists m, run w fuel c fs = Running m 0 fuel) /\
  (forall m it, run w fuel c fs <> Exhausted m it).
Proof.
  intros Hnone.
  destruct (portal_loop_none _ c w fuel (run_setup w c fs) 0%nat
              (run_setup_Inv w c fs) Hnone) as [m Hm].
  unfold run. rewrite Hm, Nat.add_0_r. split; [by exists m|done].
Qed.

(** On the demo site with [refresh_mode: none] and [no_new_limit = 2], the
    run is still going after 40 rounds. *)
Lemma C1_witness :
  (exists m, run demo_world 40 (init demo_config_none) demo_files = Running m 0 40) /\
  (forall m it, run demo_world 40 (init demo_config_none) demo_files <> Exhausted m it).
Proof.
  apply (C1_none_mode_never_exhausted demo_world 40 (init demo_config_none) demo_files).
  reflexivity.
Defined.

(** For contrast: when [_refresh_page] reports no progress and the portal
    yields no new link, the loop ends in round [no_new_limit], as the
    counter is meant to make it. *)
Lemma extract_loop_silent hrefs : forall m out m' out',
  extract_loop m hrefs out = (m', out') -> length out' = length out -> m' = m.
Proof.
  induction hrefs as [|h rest IH]; intros m out m' out' E Hlen; simpl in E.
  - by injection E as <- <-.
  - destruct (negb (truthy h)); [by eapply IH|].
    destruct (nonempty _ && negb _)%bool; [by eapply IH|].
    destruct (mem _ (seen_urls _)); [by eapply IH|].
    destruct (mem _ (processed_urls _)); [by eapply IH|].
    apply extract_loop_exact in E as (new & -> & _).
    rewrite !length_app in Hlen. simpl in Hlen. lia.
Qed.

Lemma extract_silent m hrefs :
  snd (_extract_links_from_page m hrefs) = [] ->
  _extract_links_from_page m hrefs = (m, []).
Proof.
  destruct hrefs as [hs|]; simpl; [|done].
  destruct (extract_loop m hs []) as [m' out] eqn:E. simpl. intros ->.
  by apply extract_loop_silent in E as ->.
Qed.

Lemma portal_loop_stale w fuel : forall m cnt it,
  (forall i, snd (_extract_links_from_page m (portal_hrefs w i)) = []) ->
  (forall i, _refresh_page w (self m) i = false) ->
  0 <= cnt < no_new_limit (self m) ->
  (Z.to_nat (no_new_limit (self m) - cnt) <= fuel)%nat ->
  portal_loop w fuel m cnt it =
  Exhausted m (it + Z.to_nat (no_new_limit (self m) - cnt))%nat.
Proof.
  induction fuel as [|fuel IH]; intros m cnt it Hsilent Hstale Hcnt Hfuel; [lia|].
  simpl. rewrite (extract_silent _ _ (Hsilent (S it))). simpl. rewrite Hstale.
  rewrite Z.geb_leb. destruct (Z.leb_spec (no_new_limit (self m)) (cnt + 1)).
  - f_equal. lia.
  - rewrite IH by (auto; lia). f_equal. lia.
Qed.

Lemma stale_portal_exhausts w fuel c fs :
  let m := run_setup w c fs in
  (forall i, snd (_extract_links_from_page m (portal_hrefs w i)) = []) ->
  (forall i, _refresh_page w (self m) i = false) ->
  1 <= no_new_limit (self m) ->
  (Z.to_nat (no_new_limit (self m)) <= fuel)%nat ->
  run w fuel c fs = Exhausted m (Z.to_nat (no_new_limit (self m))).
Proof.
  intros m Hsilent Hstale Hlim Hfuel. unfold run. fold m.
  rewrite portal_loop_stale; auto; rewrite ?Z.sub_0_r; auto. lia.
Qed.

(** ** Politeness *)

(** What one call in isolation achieves: it returns no earlier than
    [delay_s] after the time it read from [per_domain_last]. *)
Lemma wait_check_spec delay_s per_domain_last url now :
  match Politeness.wait_check delay_s per_domain_last url now with
  | Some d =>
      (now + d == Politeness.last_of per_domain_last (url_netloc url) + delay_s)%Q
  | None =>
      (Politeness.last_of per_domain_last (url_netloc url) + delay_s <= now)%Q
  end.
Proof.
  unfold Politeness.wait_check, Qltb.
  set (last := Politeness.last_of per_domain_last (url_netloc url)).
  destruct (Qle_bool delay_s (now - last)) eqn:E; simpl.
  - apply Qle_bool_iff in E. lra.
  - ring.
Qed.

(** C2.  Three tasks of one level enter [domain_delay_wait] for the same
    domain with [delay_s = 1]: the first goes on at once, the other two
    both read the time the first one stored, both sleep, and both return
    at time 1001, with no delay between them. *)
Theorem C2_two_waiters_return_together :
  option_map Politeness.release_times
    (Politeness.steps 1 (Politeness.fresh 1000) Politeness.three_tasks) =
  Some [(0%nat, "x.test", 1000%Q); (1%nat, "x.test", 1001%Q);
        (2%nat, "x.test", 1001%Q)].
Proof. vm_compute. reflexivity. Qed.

(** The demo site crawled in mode [pull], where no control can be
    clicked: the run ends in round 3, after two rounds without a new
    link. *)
Example demo_run_exhausted :
  match run demo_world 6 (init demo_config) demo_files with
  | Exhausted _ iteration => iteration = 3%nat
  | Running _ _ _ => False
  end.
Proof. vm_compute. reflexivity. Qed.

(** A level of one URL is [_process_page_task] on that URL: the two
    phases of [run_level] are the two halves of the method. *)
Lemma run_level_single w it m u d :
  run_level w it m [u] d =
  let '(m', r) := _process_page_task w it (emit (EvDispatch u d) m) u d in
  (m', [r]).
Proof.
  unfold run_level, _process_page_task. cbn [fold_left number length seq combine start_tasks].
  destruct (can_fetch_robots w (emit (EvDispatch u d) m) u) as [m1 ok].
  destruct ok; cbn.
  - destruct (page_block w it m1 u d) as [m2 r]. reflexivity.
  - reflexivity.
Qed.

(** * Further properties of the code *)

(** ** [sanitize_filename] *)

Lemma sub_runs_elem cls b s c :
  c ∈ sub_runs cls b s -> c = UNDERSCORE \/ (c ∈ s /\ cls c = false).
Proof.
  revert b. induction s as [|x s IH]; intros b; simpl.
  - intros H. by apply elem_of_nil in H.
  - destruct (cls x) eqn:E.
    + destruct b.
      * intros H. destruct (IH _ H) as [?|[? ?]]; [by left|right]. split; [by right|done].
      * intros [->|H]%elem_of_cons; [by left|].
        destruct (IH _ H) as [?|[? ?]]; [by left|right]. split; [by right|done].
    + intros [->|H]%elem_of_cons; [right; split; [by left|done]|].
      destruct (IH _ H) as [?|[? ?]]; [by left|right]. split; [by right|done].
Qed.

Lemma sub_runs_id cls b s :
  (forall c, c ∈ s -> cls c = false) -> sub_runs cls b s = s.
Proof.
  revert b. induction s as [|x s IH]; intros b H; simpl; [done|].
  rewrite (H x) by (by left). f_equal. apply IH. intros c Hc. apply H. by right.
Qed.

Lemma lstrip_underscore_split s :
  exists k, s = (k ++ lstrip_underscore s)%list.
Proof.
  induction s as [|c s [k IH]]; simpl; [by exists []|].
  destruct (N.eqb c UNDERSCORE); [|by exists []].
  exists (c :: k). simpl. by f_equal.
Qed.

Lemma lstrip_underscore_head s : head (lstrip_underscore s) <> Some UNDERSCORE.
Proof.
  induction s as [|c s IH]; simpl; [done|].
  destruct (N.eqb_spec c UNDERSCORE); [done|]. simpl. congruence.
Qed.

Lemma lstrip_underscore_id s :
  head s <> Some UNDERSCORE -> lstrip_underscore s = s.
Proof.
  destruct s as [|c s]; simpl; [done|]. intros H.
  destruct (N.eqb_spec c UNDERSCORE); [congruence|done].
Qed.

Lemma strip_underscore_split s :
  exists k1 k2, s = (k1 ++ strip_underscore s ++ k2)%list.
Proof.
  unfold strip_underscore.
  destruct (lstrip_underscore_split s) as [k1 H1].
  destruct (lstrip_underscore_split (reverse (lstrip_underscore s))) as [k2 H2].
  exists k1, (reverse k2). rewrite <- reverse_app, <- H2, reverse_involutive. done.
Qed.

Lemma strip_underscore_head s : head (strip_underscore s) <> Some UNDERSCORE.
Proof.
  unfold strip_underscore.
  destruct (lstrip_underscore_split (reverse (lstrip_underscore s))) as [k H].
  set (y := lstrip_underscore (reverse (lstrip_underscore s))) in *.
  assert (Hs : lstrip_underscore s = (reverse y ++ reverse k)%list).
  { by rewrite <- reverse_app, <- H, reverse_involutive. }
  destruct (reverse y) as [|c r] eqn:E; [done|].
  pose proof (lstrip_underscore_head s) as Hh. rewrite Hs in Hh. done.
Qed.

Lemma strip_underscore_last s : last (strip_underscore s) <> Some UNDERSCORE.
Proof. unfold strip_underscore. rewrite last_reverse. apply lstrip_underscore_head. Qed.

Lemma strip_underscore_id s :
  head s <> Some UNDERSCORE -> last s <> Some UNDERSCORE -> strip_underscore s = s.
Proof.
  intros Hh Hl. unfold strip_underscore. rewrite (lstrip_underscore_id s) by done.
  rewrite lstrip_underscore_id by (by rewrite head_reverse).
  apply reverse_involutive.
Qed.

Lemma strip_underscore_elem s c : c ∈ strip_underscore s -> c ∈ s.
Proof.
  destruct (strip_underscore_split s) as (k1 & k2 & H). intros Hc.
  rewrite H, !elem_of_app. auto.
Qed.

Lemma strip_underscore_length s : (length (strip_underscore s) <= length s)%nat.
Proof.
  destruct (strip_underscore_split s) as (k1 & k2 & H).
  rewrite H at 2. rewrite !length_app. lia.
Qed.

Lemma sanitize_filename_cases s max_len :
  let cleaned := sub_runs is_space false (sub_runs unsafe_char false s) in
  (strip_underscore (take max_len cleaned) = [] /\ sanitize_filename s max_len = PAGE) \/
  (strip_underscore (take max_len cleaned) <> [] /\
   sanitize_filename s max_len = strip_underscore (take max_len cleaned)).
Proof.
  intros cleaned. unfold sanitize_filename. fold cleaned.
  destruct (strip_underscore (take max_len cleaned)); [by left|by right].
Qed.

Lemma cleaned_name_chars s c :
  c ∈ sub_runs is_space false (sub_runs unsafe_char false s) -> name_char c.
Proof.
  intros [->|[Hc Hs]]%sub_runs_elem; [done|].
  apply sub_runs_elem in Hc as [->|[_ Hu]]; done.
Qed.

Lemma sanitize_filename_facts s max_len :
  sanitize_filename s max_len <> [] /\
  Forall name_char (sanitize_filename s max_len) /\
  head (sanitize_filename s max_len) <> Some UNDERSCORE /\
  last (sanitize_filename s max_len) <> Some UNDERSCORE /\
  (length (sanitize_filename s max_len) <= Nat.max max_len 4)%nat.
Proof.
  destruct (sanitize_filename_cases s max_len) as [[_ ->]|[Hne ->]].
  - split; [done|]. split; [by repeat constructor|]. split; [done|]. split; [done|].
    simpl. lia.
  - split; [done|]. split; [|split; [|split]].
    + apply Forall_forall. intros c Hc%strip_underscore_elem.
      apply elem_of_take in Hc as (i & Hi & _).
      eapply cleaned_name_chars, list_elem_of_lookup_2, Hi.
    + apply strip_underscore_head.
    + apply strip_underscore_last.
    + etrans; [apply strip_underscore_length|]. rewrite length_take. lia.
Qed.

(** X1.  The name [sanitize_filename] returns is never empty, holds none
    of the characters of the first pattern and no white space, and neither
    starts nor ends with an underscore. *)
Theorem sanitize_filename_safe s max_len :
  sanitize_filename s max_len <> [] /\
  Forall name_char (sanitize_filename s max_len) /\
  head (sanitize_filename s max_len) <> Some UNDERSCORE /\
  last (sanitize_filename s max_len) <> Some UNDERSCORE.
Proof. destruct (sanitize_filename_facts s max_len) as (? & ? & ? & ? & _). done. Qed.

(** X2.  The name has at most [max_len] characters, or the four of
    ["page"] when nothing else is left. *)
Theorem sanitize_filename_length s max_len :
  (length (sanitize_filename s max_len) <= Nat.max max_len 4)%nat.
Proof. apply sanitize_filename_facts. Qed.

(** X3.  Sanitising is idempotent for every [max_len] of at least four:
    a sanitised name is left as it is. *)
Theorem sanitize_filename_idempotent s max_len :
  (4 <= max_len)%nat ->
  sanitize_filename (sanitize_filename s max_len) max_len = sanitize_filename s max_len.
Proof.
  intros Hmax.
  destruct (sanitize_filename_facts s max_len) as (Hne & Hall & Hh & Hl & Hlen).
  set (r := sanitize_filename s max_len) in *.
  unfold sanitize_filename at 1.
  rewrite (sub_runs_id unsafe_char), (sub_runs_id is_space).
  - rewrite take_ge by lia. rewrite strip_underscore_id by done. by destruct r.
  - intros c Hc. by apply (proj1 (Forall_forall _ _) Hall).
  - intros c Hc. by apply (proj1 (Forall_forall _ _) Hall).
Qed.

Lemma sanitize_filename_idempotent_witness :
  (4 <= 50)%nat /\
  sanitize_filename (sanitize_filename [32; 97; 58; 32; 98; 95]%N 50) 50 =
  sanitize_filename [32; 97; 58; 32; 98; 95]%N 50.
Proof.
  split; [lia|]. apply (sanitize_filename_idempotent [32; 97; 58; 32; 98; 95]%N 50). lia.
Defined.

(** ** [normalize_url] *)

Lemma normalize_url_chars url :
  "#"%char ∉ list_ascii_of_string (normalize_url url).
Proof.
  induction url as [|c url IH]; simpl.
  - intros H. by apply elem_of_nil in H.
  - destruct (Ascii.eqb_spec c "#"); simpl.
    + intros H. by apply elem_of_nil in H.
    + intros [?|?]%elem_of_cons; [congruence|done].
Qed.




(** ** [write_json_atomic] and [read_json] *)

Lemma files_at_other p fs path content q :
  q <> path -> q <> tmp_path path ->
  files_at p fs path content !! q = fs !! q.
Proof.
  intros H1 H2. unfold files_at.
  destruct p; simpl; rewrite ?lookup_insert_eq;
    rewrite ?lookup_insert_ne, ?lookup_delete_ne, ?lookup_insert_ne by done; done.
Qed.

Lemma files_at_replaced_tmp fs path content :
  files_at Replaced fs path content !! tmp_path path = None.
Proof.
  pose proof (tmp_path_ne path) as Hne. unfold files_at. simpl.
  rewrite lookup_insert_eq, lookup_insert_ne, lookup_delete_eq; done.
Qed.

(** X5.  A [write_json_atomic] call, however it ends, changes no file
    other than the target and its [.tmp] companion; a call that completes
    leaves no [.tmp] file behind, and neither does one that fails and
    whose handler can unlink it. *)
Theorem write_json_atomic_frame w r fs path data :
  (forall q, q <> path -> q <> tmp_path path ->
     fst (write_json_atomic w r fs path data) !! q = fs !! q) /\
  fst (write_json_atomic w Completes fs path data) !! tmp_path path = None /\
  (forall at_, fst (write_json_atomic w (Raises at_ true) fs path data)
               !! tmp_path path = None).
Proof.
  split; [|split].
  - intros q H1 H2. unfold write_json_atomic.
    destruct r as [|p ok]; cbn [fst]; [by apply files_at_other|].
    destruct p; cbn [fst]; try (by apply files_at_other);
      unfold cleanup_tmp; destruct ok;
      rewrite ?lookup_delete_ne by done; by apply files_at_other.
  - apply files_at_replaced_tmp.
  - intros p. unfold write_json_atomic.
    destruct p; cbn [fst]; try apply files_at_replaced_tmp;
      unfold cleanup_tmp; apply lookup_delete_eq.
Qed.

Lemma write_json_atomic_frame_witness :
  fst (write_json_atomic demo_world (Raises (Writing 3) true) demo_files
         "history.json" ∅) !! "artifact.pdf" = demo_files !! "artifact.pdf".
Proof.
  apply (proj1 (write_json_atomic_frame demo_world (Raises (Writing 3) true)
                  demo_files "history.json" ∅)); discriminate.
Defined.

(** X6.  Record, then reload: when the write of [save_history_entry]
    completes and the JSON codec gives back the mapping it was given, a
    crawler that loads the same history file afterwards starts with the
    mapping the first one had in memory, and with the recorded URL among
    its processed URLs. *)
Theorem save_then_load w it m url fname h c' :
  let m' := save_history_entry w it m url fname h in
  io_result w it url = Completes ->
  json_loads w (json_dumps w (history (self m'))) = Some (history (self m')) ->
  history_file c' = history_file (self m) ->
  let m2 := load_history w {| self := c'; files := files m'; log := [] |} in
  history (self m2) = history (self m') /\
  processed_urls (self m2) = dom (history (self m')) /\
  url ∈ processed_urls (self m2) /\
  log m2 = [].
Proof.
  intros m' Hio Hcodec Hfile m2.
  destruct (save_history_entry_fields w it m url fname h) as (Hh & _ & _ & _ & _ & Hf & _).
  fold m' in Hh, Hf.
  assert (Hfile' : files m' !! history_file c' = Some (json_dumps w (history (self m')))).
  { rewrite Hfile, Hf, write_json_atomic_target, Hio. by rewrite Hh. }
  subst m2. unfold load_history, read_json. cbn [self files log].
  rewrite Hfile', Hcodec. cbn.
  split; [done|]. split; [done|]. split; [|done].
  rewrite Hh, dom_insert_L. set_solver.
Qed.

Lemma save_then_load_witness :
  "https://x.test/a/1" ∈
    processed_urls (self (load_history reload_world
      {| self := init demo_config;
         files := files (save_history_entry reload_world 1 blank_machine
                           "https://x.test/a/1" "a1.pdf" "a1");
         log := [] |})).
Proof.
  destruct (save_then_load reload_world 1 blank_machine "https://x.test/a/1"
              "a1.pdf" "a1" (init demo_config)) as (_ & _ & H & _);
    [reflexivity|vm_compute; reflexivity|reflexivity|exact H].
Defined.

(** ** [Crawler.__init__] *)

Lemma init_refresh_mode_cases s :
  init_refresh_mode s = "pull" \/ init_refresh_mode s = "pagination" \/
  init_refresh_mode s = "none".
Proof.
  unfold init_refresh_mode. set (r := if truthy s then lower s else "none").
  destruct (String.eqb_spec r "pull") as [->|_]; [by left|].
  destruct (String.eqb_spec r "pagination") as [->|_]; [by right; left|].
  destruct (String.eqb_spec r "none") as [->|_]; by right; right.
Qed.

Lemma init_refresh_mode_known s mode :
  mode = "pull" \/ mode = "pagination" \/ mode = "none" ->
  lower s = mode -> init_refresh_mode s = mode.
Proof.
  intros Hmode Hl. unfold init_refresh_mode.
  assert (Ht : truthy s = true).
  { destruct s; [|done]. simpl in Hl. destruct Hmode as [-> | [-> | ->]]; discriminate. }
  rewrite Ht, Hl. destruct Hmode as [-> | [-> | ->]]; reflexivity.
Qed.

(** X7.  Whatever the configuration says, the crawler's [refresh_mode] is
    one of ["pull"], ["pagination"] and ["none"], a mode being recognised
    in any letter case, and its [start_url] has no fragment; a run of any
    length leaves both as they are. *)
Theorem init_normalises cfg w fuel fs :
  let c := init cfg in
  let c' := self (machine_of (run w fuel c fs)) in
  (refresh_mode c = "pull" \/ refresh_mode c = "pagination" \/ refresh_mode c = "none") /\
  (forall mode,
     mode = "pull" \/ mode = "pagination" \/ mode = "none" ->
     lower (cfg_refresh_mode cfg) = mode -> refresh_mode c = mode) /\
  ("#"%char ∉ list_ascii_of_string (start_url c)) /\
  refresh_mode c' = refresh_mode c /\ start_url c' = start_url c.
Proof.
  intros c c'. split; [apply init_refresh_mode_cases|].
  split; [intros mode; apply init_refresh_mode_known|].
  split; [apply normalize_url_chars|].
  pose proof (inv_settings (run_Inv w fuel c fs)) as Hs.
  apply settings_fields in Hs. fold c' in Hs. by intuition.
Qed.

Lemma init_normalises_witness : refresh_mode (init demo_config) = "pull".
Proof.
  apply (proj1 (proj2 (init_normalises demo_config demo_world 0 demo_files)) "pull");
    [by left|reflexivity].
Defined.

(** ** [Crawler.can_fetch_robots] *)



(** X9.  When the robots.txt request of an origin is answered with a 4xx
    status, the first query and every later query for that origin agree:
    all are refused for 401 and 403, all are allowed for any other 4xx
    (such as a missing robots.txt). *)
Theorem robots_client_error w m url1 url2 code :
  obey_robots (self m) = true ->
  robots_cache (self m) !! url_origin url1 = None ->
  robots_read w (url_origin url1) = ReadHTTPError code ->
  url_origin url2 = url_origin url1 ->
  400 <= code < 500 ->
  let m1 := fst (can_fetch_robots w m url1) in
  let allowed := negb (Z.eqb code 401 || Z.eqb code 403) in
  snd (can_fetch_robots w m url1) = allowed /\
  snd (can_fetch_robots w m1 url2) = allowed.
Proof.
  intros Ho Hc Hr Hu Hcode m1 allowed. subst m1 allowed.
  unfold can_fetch_robots at 1 3. rewrite Ho, Hc, Hr. cbn [negb parser_read].
  destruct (Z.eqb code 401 || Z.eqb code 403)%bool eqn:E; cbn [fst snd negb].
  - split; [done|]. unfold can_fetch_robots. cbn. by rewrite Ho, Hu, lookup_insert_eq.
  - replace (Z.leb 400 code && Z.ltb code 500)%bool with true
      by (symmetry; apply andb_true_iff; split; [apply Z.leb_le|apply Z.ltb_lt]; lia).
    cbn [fst snd]. split; [done|].
    unfold can_fetch_robots. cbn. by rewrite Ho, Hu, lookup_insert_eq.
Qed.

Lemma robots_client_error_witness :
  snd (can_fetch_robots no_robots_world (demo_machine demo_config_none)
         "https://x.test/a/1") = true /\
  snd (can_fetch_robots no_robots_world
         (fst (can_fetch_robots no_robots_world (demo_machine demo_config_none)
                 "https://x.test/a/1"))
         "https://x.test/a/2") = true.
Proof.
  apply (robots_client_error no_robots_world (demo_machine demo_config_none)
           "https://x.test/a/1" "https://x.test/a/2" 404);
    [reflexivity|reflexivity|reflexivity|reflexivity|lia].
Defined.

(** ** The portal loop *)

Lemma refresh_page_settings w c c' it :
  settings c = settings c' -> _refresh_page w c it = _refresh_page w c' it.
Proof.
  intros H. apply settings_fields in H. unfold _refresh_page.
  destruct H as (_ & _ & _ & _ & _ & _ & -> & _). done.
Qed.

Lemma run_setup_settings w c fs : settings (self (run_setup w c fs)) = settings c.
Proof. apply (inv_settings (run_setup_Inv w c fs)). Qed.




Lemma portal_loop_exhausted w fuel : forall m cnt it m' it',
  0 <= cnt ->
  portal_loop w fuel m cnt it = Exhausted m' it' ->
  (it < it' <= it + fuel)%nat /\
  no_new_limit (self m') <= cnt + Z.of_nat (it' - it) /\
  snd (_extract_links_from_page m' (portal_hrefs w it')) = [] /\
  _refresh_page w (self m') it' = false.
Proof.
  induction fuel as [|fuel IH]; intros m cnt it m' it' Hcnt H; simpl in H; [done|].
  destruct (_extract_links_from_page m (portal_hrefs w (S it))) as [m1 links] eqn:E1.
  assert (Hstep : forall m2 c2, 0 <= c2 <= cnt + 1 ->
            portal_loop w fuel m2 c2 (S it) = Exhausted m' it' ->
            (it < it' <= it + S fuel)%nat /\
            no_new_limit (self m') <= cnt + Z.of_nat (it' - it) /\
            snd (_extract_links_from_page m' (portal_hrefs w it')) = [] /\
            _refresh_page w (self m') it' = false).
  { intros m2 c2 Hc2 H2. apply IH in H2 as (Hit & Hl & He & Hr); [|lia].
    split; [lia|]. split; [lia|done]. }
  destruct links as [|l links]; simpl in H.
  - destruct (_refresh_page w (self m1) (S it)) eqn:R; [apply (Hstep m1 0); [lia|done]|].
    rewrite Z.geb_leb in H.
    destruct (Z.leb_spec (no_new_limit (self m1)) (cnt + 1)).
    + injection H as <- <-.
      assert (Hm : m1 = m).
      { pose proof (extract_silent m (portal_hrefs w (S it))) as Hs.
        rewrite E1 in Hs. by injection (Hs eq_refl). }
      subst m1. split; [lia|]. split; [lia|]. split; [by rewrite E1|done].
    + apply (Hstep m1 (cnt + 1)); [lia|done].
  - destruct (_refresh_page w _ (S it)); eapply Hstep; try exact H; lia.
Qed.

(** X11.  A run gives up only in a round in which the portal showed no
    new link and [_refresh_page] reported no progress, and never before
    round [no_new_limit]. *)
Theorem run_exhausted_only_when_stale w fuel c fs m it :
  run w fuel c fs = Exhausted m it ->
  (1 <= it <= fuel)%nat /\
  no_new_limit c <= Z.of_nat it /\
  snd (_extract_links_from_page m (portal_hrefs w it)) = [] /\
  _refresh_page w c it = false.
Proof.
  intros H. pose proof (inv_settings (run_Inv w fuel c fs)) as Hs.
  rewrite H in Hs. simpl in Hs.
  unfold run in H. apply portal_loop_exhausted in H as (Hit & Hl & He & Hr); [|lia].
  split; [lia|]. split; [|split; [done|]].
  - apply settings_fields in Hs. replace (no_new_limit c) with (no_new_limit (self m))
      by (by intuition). lia.
  - by rewrite <- (refresh_page_settings w _ _ it Hs).
Qed.

Lemma run_exhausted_only_when_stale_witness :
  (1 <= 2 <= 5)%nat /\
  no_new_limit (init demo_config) <= Z.of_nat 2 /\
  snd (_extract_links_from_page (run_setup quiet_world (init demo_config) demo_files)
         (portal_hrefs quiet_world 2)) = [] /\
  _refresh_page quiet_world (init demo_config) 2 = false.
Proof.
  apply (run_exhausted_only_when_stale quiet_world 5 (init demo_config) demo_files).
  vm_compute. reflexivity.
Defined.

(** ** At most once: the bookkeeping of a run *)

Lemma submseteq_NoDup {A} (l k : list A) : l ⊆+ k -> NoDup k -> NoDup l.
Proof.
  intros [k' Hk]%submseteq_Permutation Hnd. rewrite Hk in Hnd.
  by apply NoDup_app in Hnd as (? & _).
Qed.

Lemma Once_ledger S0 P0 m m' pending todo :
  ledger m' = ledger m -> Once S0 P0 m pending todo -> Once S0 P0 m' pending todo.
Proof.
  unfold ledger. intros [= Hs Hp Hh Hd Hr He] [].
  split; rewrite ?Hs, ?Hp, ?Hh, ?Hd, ?Hr, ?He; done.
Qed.

Lemma Once_todo_sub S0 P0 m pending todo todo' :
  todo' ⊆+ todo -> Once S0 P0 m pending todo -> Once S0 P0 m pending todo'.
Proof.
  intros Hsub [H0 Hnd Hseen Hh Hp Hrn Hrd Hpdf Htn Ht]. split; try done.
  - by eapply submseteq_NoDup.
  - intros u Hu. apply Ht. by eapply elem_of_submseteq.
Qed.

Lemma Once_pending_sub S0 P0 m pending pending' :
  NoDup pending' -> (forall u, u ∈ pending' -> u ∈ pending) ->
  Once S0 P0 m pending [] -> Once S0 P0 m pending' [].
Proof.
  intros Hnd' Hsub [H0 Hnd Hseen Hh Hp Hrn Hrd Hpdf Htn Ht]. split; try done.
  - apply NoDup_app in Hnd as (_ & Hdis & Hd).
    apply NoDup_app. split; [done|]. split; [|done]. intros u Hu. by apply Hdis, Hsub.
  - intros u [Hu|Hu]%elem_of_app; apply Hseen; apply elem_of_app; auto.
Qed.

Lemma ledger_emit e m :
  match e with EvDispatch _ _ | EvRecord _ | EvPdf _ => False | _ => True end ->
  ledger (emit e m) = ledger m.
Proof. by destruct e. Qed.

Lemma extract_loop_ledger hrefs : forall m out,
  dispatched (log (fst (extract_loop m hrefs out))) = dispatched (log m) /\
  exported (log (fst (extract_loop m hrefs out))) = exported (log m).
Proof.
  induction hrefs as [|h rest IH]; intros m out; simpl; [done|].
  destruct (negb (truthy h)); [apply IH|].
  destruct (nonempty _ && negb _)%bool; [apply IH|].
  destruct (mem _ (seen_urls _)); [apply IH|].
  destruct (mem _ (processed_urls _)); [apply IH|].
  destruct (IH (emit (EvSeen (normalize_url h))
                  (with_self (fun c => set_seen_urls ({[normalize_url h]} ∪ seen_urls c) c) m))
               (out ++ [normalize_url h])%list) as [-> ->]. done.
Qed.

Lemma extract_Once S0 P0 m hrefs m' out pending todo :
  _extract_links_from_page m hrefs = (m', out) ->
  Once S0 P0 m pending todo -> Once S0 P0 m' (pending ++ out) todo.
Proof.
  intros E HO. destruct hrefs as [hs|]; simpl in E.
  2: { injection E as <- <-. by rewrite app_nil_r. }
  pose proof (extract_loop_ledger hs m []) as [Hd He].
  pose proof (extract_loop_records hs m []) as Hr.
  rewrite E in Hd, He, Hr. cbn [fst] in Hd, He, Hr.
  apply extract_loop_exact in E
    as (new & -> & Hnew_nd & Hnew & Hseen' & _ & _ & Hp' & Hh' & _).
  rewrite app_nil_l. destruct HO as [H0 Hnd Hseen Hh Hp Hrn Hrd Hpdf Htn Ht].
  assert (Hfresh : forall u, u ∈ new -> u ∉ seen_urls (self m)).
  { intros u Hu. by apply Hnew in Hu as (_ & _ & ? & _). }
  split; rewrite ?Hd, ?He, ?Hr, ?Hp', ?Hh', ?Hseen'; try done.
  - set_solver.
  - rewrite <- app_assoc. apply NoDup_app in Hnd as (Hpn & Hdis & Hdn).
    apply NoDup_app. split; [done|]. split; [|apply NoDup_app; split; [done|]; split; [|done]].
    + intros u Hu [Hn|Hd']%elem_of_app; [|by eapply Hdis].
      apply (Hfresh u Hn). apply Hseen. apply elem_of_app. by left.
    + intros u Hu Hd'. apply (Hfresh u Hu). apply Hseen. apply elem_of_app. by right.
  - intros u Hu. rewrite <- app_assoc in Hu.
    apply elem_of_app in Hu as [Hu|[Hu|Hu]%elem_of_app].
    + destruct (Hseen u) as [? ?]; [apply elem_of_app; by left|]. split; [set_solver|done].
    + split; [set_solver|]. intros Hin. apply (Hfresh u Hu). by apply H0.
    + destruct (Hseen u) as [? ?]; [apply elem_of_app; by right|]. split; [set_solver|done].
Qed.

Lemma save_history_entry_log w it m url fname h :
  dispatched (log (save_history_entry w it m url fname h)) = dispatched (log m) /\
  exported (log (save_history_entry w it m url fname h)) = exported (log m).
Proof.
  unfold save_history_entry. cbn [emit with_self self files log].
  destruct (write_json_atomic _ _ _ _ _) as [fs' warned]. by destruct warned.
Qed.

Lemma page_block_Once S0 P0 w it m url depth m' r pending todo :
  page_block w it m url depth = (m', r) ->
  Once S0 P0 m pending (url :: todo) ->
  Once S0 P0 m' (pending ++ links_of r) todo.
Proof.
  intros E HO. unfold page_block in E.
  assert (Hdrop : Once S0 P0 m pending todo).
  { eapply Once_todo_sub; [|exact HO]. apply submseteq_cons. done. }
  destruct (negb (new_page_ok w it url)).
  { injection E as <- <-. simpl. rewrite app_nil_r.
    by apply (Once_ledger _ _ m). }
  unfold _save_pdf_from_page in E.
  (* the state after the export and the record step *)
  set (m0 := emit (EvOpen url depth) m) in E.
  assert (H1 : exists m1,
    (let '(m1', saved) :=
       if pdf_ok w it url
       then (save_history_entry w it (emit (EvPdf url) m0) url
               (artifact_name w it url) (sha1_hex w url), true)
       else (emit (EvWarning "Failed to save PDF" url) m0, false) in
     if saved then m1' else emit (EvWarning "skipping record" url) m1') = m1 /\
    Once S0 P0 m1 pending todo).
  { destruct (pdf_ok w it url).
    - eexists. split; [reflexivity|].
      destruct (save_history_entry_fields w it (emit (EvPdf url) m0) url
                  (artifact_name w it url) (sha1_hex w url))
        as (Hh' & Hp' & Hs' & _ & Hr' & _).
      destruct (save_history_entry_log w it (emit (EvPdf url) m0) url
                  (artifact_name w it url) (sha1_hex w url)) as [Hd' He'].
      cbn [emit self log files dispatched exported records m0] in *.
      destruct HO as [H0 Hnd Hseen Hh Hp Hrn Hrd Hpdf Htn Ht].
      destruct (Ht url) as [Hud Hur]; [by left|].
      apply NoDup_cons in Htn as [Hut Htn].
      split; rewrite ?Hh', ?Hp', ?Hs', ?Hr', ?Hd', ?He'; try done.
      + rewrite dom_insert_L. by rewrite Hh.
      + rewrite Hp. cbn. set_solver.
      + by apply NoDup_cons.
      + intros u [->|Hu]%elem_of_cons; [done|by apply Hrd].
      + by rewrite Hpdf.
      + intros u Hu. destruct (Ht u) as [? ?]; [by right|]. split; [done|].
        intros [->|?]%elem_of_cons; done.
    - eexists. split; [reflexivity|]. by apply (Once_ledger _ _ m). }
  destruct H1 as (m1 & Hm1 & HO1).
  destruct (pdf_ok w it url); cbn [fst snd] in Hm1; rewrite Hm1 in E; clear Hm1;
    (destruct (Z.ltb depth (max_depth (self m1)));
     [destruct (_extract_links_from_page m1 (page_hrefs w it url)) as [m2 links] eqn:E2;
      injection E as <- <-; simpl;
      apply (Once_ledger _ _ m2); [done|]; by eapply extract_Once
     |injection E as <- <-; simpl; rewrite app_nil_r; by apply (Once_ledger _ _ m1)]).
Qed.

Lemma can_fetch_robots_ledger w m url :
  ledger (fst (can_fetch_robots w m url)) = ledger m.
Proof.
  unfold can_fetch_robots. destruct (negb (obey_robots (self m))); [done|].
  destruct (robots_cache (self m) !! url_origin url); [done|].
  by destruct (parser_read _ _).
Qed.

Lemma start_tasks_ledger w d tasks : forall m m' pending finished,
  start_tasks w m d tasks = (m', (pending, finished)) ->
  ledger m' = ledger m /\
  snd <$> pending `sublist_of` snd <$> tasks /\
  all_links finished = [].
Proof.
  induction tasks as [|[i u] rest IH]; intros m m' pending finished E; simpl in E.
  - injection E as <- <- <-. split; [done|]. split; [constructor|done].
  - pose proof (can_fetch_robots_ledger w m u) as Hl.
    destruct (can_fetch_robots w m u) as [m1 ok]. cbn [fst] in Hl.
    destruct ok; simpl in E.
    + destruct (start_tasks w m1 d rest) as [m2 [p2 f2]] eqn:E2.
      injection E as <- <- <-. apply IH in E2 as (Hl2 & Hsub & Hf).
      split; [congruence|]. split; [|done]. simpl. by apply sublist_skip.
    + destruct (start_tasks w (emit (EvReturn u d []) m1) d rest) as [m2 [p2 f2]] eqn:E2.
      injection E as <- <- <-. apply IH in E2 as (Hl2 & Hsub & Hf).
      split; [by rewrite Hl2, <- Hl|]. split; [|done]. simpl. by apply sublist_cons.
Qed.

Lemma resume_tasks_Once S0 P0 w it d order : forall m m' finished pending,
  resume_tasks w it m d order = (m', finished) ->
  Once S0 P0 m pending (snd <$> order) ->
  Once S0 P0 m' (pending ++ all_links finished) [].
Proof.
  induction order as [|[i u] rest IH]; intros m m' finished pending E HO; simpl in E.
  - injection E as <- <-. simpl. by rewrite app_nil_r.
  - destruct (page_block w it m u d) as [m1 r] eqn:E1.
    destruct (resume_tasks w it m1 d rest) as [m2 f2] eqn:E2.
    injection E as <- <-. simpl. rewrite app_assoc.
    eapply IH; [exact E2|]. by eapply page_block_Once.
Qed.

Lemma dispatch_log d level : forall m,
  let m' := fold_left (fun m u => emit (EvDispatch u d) m) level m in
  self m' = self m /\
  dispatched (log m') = (reverse level ++ dispatched (log m))%list /\
  records (log m') = records (log m) /\
  exported (log m') = exported (log m).
Proof.
  induction level as [|u level IH]; intros m; cbn [fold_left]; [done|].
  destruct (IH (emit (EvDispatch u d) m)) as (Hs & Hd & Hr & He).
  rewrite Hs, Hd, Hr, He. cbn [emit self log dispatched records exported].
  by rewrite reverse_cons, <- app_assoc.
Qed.

Lemma dispatch_Once S0 P0 d level m :
  Once S0 P0 m level [] ->
  Once S0 P0 (fold_left (fun m u => emit (EvDispatch u d) m) level m) [] level.
Proof.
  intros [H0 Hnd Hseen Hh Hp Hrn Hrd Hpdf Htn Ht].
  destruct (dispatch_log d level m) as (Hs & Hd & Hr & He).
  apply NoDup_app in Hnd as (Hln & Hdis & Hdn).
  split; rewrite ?Hs, ?Hd, ?Hr, ?He; cbn [app]; try done.
  - rewrite reverse_Permutation. by apply NoDup_app.
  - intros u Hu. apply Hseen. rewrite elem_of_app in *. by rewrite elem_of_reverse in Hu.
  - intros u Hu. rewrite elem_of_app. right. by apply Hrd.
  - intros u Hu. split; [rewrite elem_of_app, elem_of_reverse; by left|].
    intros Hur. by apply (Hdis u Hu), Hrd.
Qed.

Lemma all_links_app f1 f2 : all_links (f1 ++ f2) = (all_links f1 ++ all_links f2)%list.
Proof.
  induction f1 as [|[i r] f1 IH]; simpl; [done|]. by rewrite IH, app_assoc.
Qed.

Lemma all_links_elem finished p x :
  p ∈ finished -> x ∈ links_of (snd p) -> x ∈ all_links finished.
Proof.
  induction finished as [|[i r] rest IH]; simpl.
  - intros H. by apply elem_of_nil in H.
  - intros [->|Hp]%elem_of_cons Hx; apply elem_of_app; [by left|right; by apply IH].
Qed.

Lemma all_links_NoDup_entry finished p :
  NoDup (all_links finished) -> p ∈ finished -> NoDup (links_of (snd p)).
Proof.
  induction finished as [|[i r] rest IH]; simpl.
  - intros _ H. by apply elem_of_nil in H.
  - intros (Hr & _ & Hrest)%NoDup_app [->|Hp]%elem_of_cons; [done|by apply IH].
Qed.

Lemma all_links_disjoint finished p q x :
  NoDup (all_links finished) -> p ∈ finished -> q ∈ finished -> p <> q ->
  x ∈ links_of (snd p) -> x ∉ links_of (snd q).
Proof.
  induction finished as [|[i r] rest IH]; simpl.
  - intros _ H. by apply elem_of_nil in H.
  - intros (Hr & Hdis & Hrest)%NoDup_app [->|Hp]%elem_of_cons [->|Hq]%elem_of_cons Hne Hx Hy.
    + done.
    + apply (Hdis x Hx). by eapply all_links_elem.
    + apply (Hdis x Hy). by eapply all_links_elem.
    + by eapply IH.
Qed.

Lemma result_of_entry finished i :
  result_of finished i = None \/
  exists p, p ∈ finished /\ fst p = i /\ result_of finished i = snd p.
Proof.
  unfold result_of. destruct (List.find _ finished) as [[j r]|] eqn:E; [right|by left].
  apply find_some in E as [Hin Hj]. apply Nat.eqb_eq in Hj. simpl in Hj.
  exists (j, r). split; [by apply list_elem_of_In|done].
Qed.

Lemma collect_links_gather finished idxs x :
  x ∈ collect_links (result_of finished <$> idxs) ->
  exists p, p ∈ finished /\ fst p ∈ idxs /\ x ∈ links_of (snd p).
Proof.
  induction idxs as [|i idxs IH]; simpl.
  - intros H. by apply elem_of_nil in H.
  - assert (Hrest : x ∈ collect_links (result_of finished <$> idxs) ->
              exists p, p ∈ finished /\ fst p ∈ i :: idxs /\ x ∈ links_of (snd p)).
    { intros (p & ? & ? & ?)%IH. exists p. split; [done|]. split; [by right|done]. }
    destruct (result_of_entry finished i) as [->|(p & Hp & Hi & ->)]; [done|].
    destruct (snd p) as [links|] eqn:Es; [|done].
    intros [Hx|Hx]%elem_of_app; [|by apply Hrest].
    exists p. split; [done|]. split; [rewrite Hi; by left|by rewrite Es].
Qed.

Lemma collect_links_NoDup finished idxs :
  NoDup (all_links finished) -> NoDup idxs ->
  NoDup (collect_links (result_of finished <$> idxs)).
Proof.
  intros Hnd. induction idxs as [|i idxs IH]; simpl; [constructor|].
  intros [Hi Hidxs]%NoDup_cons.
  destruct (result_of_entry finished i) as [->|(p & Hp & Hfst & ->)]; [by apply IH|].
  destruct (snd p) as [links|] eqn:Es; [|by apply IH].
  apply NoDup_app. split; [|split; [|by apply IH]].
  - pose proof (all_links_NoDup_entry finished p Hnd Hp) as H. by rewrite Es in H.
  - intros x Hx (q & Hq & Hqi & Hxq)%collect_links_gather.
    apply (all_links_disjoint finished p q x Hnd Hp Hq); [|by rewrite Es|done].
    intros Heq. apply Hi. rewrite <- Hfst, Heq. done.
Qed.

Lemma run_level_Once S0 P0 w it m level d m' results :
  run_level w it m level d = (m', results) ->
  Once S0 P0 m level [] ->
  Once S0 P0 m' (collect_links results) [].
Proof.
  intros E HO. unfold run_level in E.
  apply (dispatch_Once _ _ d) in HO.
  set (m0 := fold_left _ level m) in *.
  destruct (start_tasks w m0 d (number level)) as [m1 [pending early]] eqn:E1.
  apply start_tasks_ledger in E1 as (Hl1 & Hsub & Hearly).
  destruct (resume_tasks w it m1 d _) as [m2 late] eqn:E2.
  injection E as <- <-.
  assert (Hnum : snd <$> number level `sublist_of` level).
  { unfold number. clear. generalize 0%nat. induction level as [|u level IH]; intros n; simpl.
    - constructor.
    - apply sublist_skip, IH. }
  eapply (resume_tasks_Once _ _ _ _ _ _ _ _ _ []) in E2.
  2: { apply (Once_ledger _ _ m0); [done|].
       eapply Once_todo_sub; [|exact HO].
       etrans; [|apply sublist_submseteq, Hnum].
       etrans; [|apply sublist_submseteq, Hsub].
       apply Permutation_submseteq. by rewrite merge_sort_Permutation. }
  rewrite app_nil_l in E2.
  assert (Hall : all_links (early ++ late) = all_links late)
    by (by rewrite all_links_app, Hearly).
  eapply Once_pending_sub; [| |exact E2].
  - apply collect_links_NoDup; [|apply NoDup_seq].
    rewrite Hall. pose proof (once_nodup E2) as Hnd.
    by apply NoDup_app in Hnd as (? & _).
  - intros x (p & Hp & _ & Hx)%collect_links_gather.
    rewrite <- Hall. by eapply all_links_elem.
Qed.

Lemma bfs_Once S0 P0 w it fuel : forall m level d,
  Once S0 P0 m level [] -> Once S0 P0 (bfs w it fuel m level d) [] [].
Proof.
  assert (Hdrop : forall m level, Once S0 P0 m level [] -> Once S0 P0 m [] []).
  { intros m level. apply Once_pending_sub; [constructor|].
    intros u H. by apply elem_of_nil in H. }
  induction fuel as [|fuel IH]; intros m level d HO; simpl; [by eapply Hdrop|].
  destruct (nonempty level && Z.leb d (max_depth (self m)))%bool; [|by eapply Hdrop].
  destruct (run_level w it m level d) as [m1 results] eqn:E1.
  apply IH. by eapply run_level_Once.
Qed.

Lemma portal_loop_Once S0 P0 w fuel : forall m cnt it,
  Once S0 P0 m [] [] -> Once S0 P0 (machine_of (portal_loop w fuel m cnt it)) [] [].
Proof.
  induction fuel as [|fuel IH]; intros m cnt it HO; simpl; [done|].
  destruct (_extract_links_from_page m _) as [m1 links] eqn:E1.
  eapply extract_Once in E1; [|exact HO]. rewrite app_nil_l in E1.
  destruct (negb (nonempty links)) eqn:El.
  - destruct links; [|done].
    destruct (_refresh_page w (self m1) (S it)); [by apply IH|].
    destruct (Z.geb _ _); [done|by apply IH].
  - apply (bfs_Once _ _ w (S it) (levels (self m1)) m1 links 1) in E1.
    destruct (_refresh_page _ _ _); by apply IH.
Qed.

Lemma run_setup_Once w c fs :
  Once (seen_urls (self (run_setup w c fs))) (processed_urls (self (run_setup w c fs)))
       (run_setup w c fs) [] [].
Proof.
  unfold run_setup, load_history. cbn [self files log].
  destruct (read_json w fs (history_file c)) as [data warned].
  destruct warned; split; cbn; try done; try constructor;
    try (intros u Hu; by apply elem_of_nil in Hu); set_solver.
Qed.

Lemma run_Once w fuel c fs :
  Once (seen_urls (self (run_setup w c fs))) (processed_urls (self (run_setup w c fs)))
       (machine_of (run w fuel c fs)) [] [].
Proof. unfold run. apply portal_loop_Once, run_setup_Once. Qed.

Lemma dispatched_elem l u : u ∈ dispatched l <-> exists d, EvDispatch u d ∈ l.
Proof.
  induction l as [|e l IH]; simpl.
  - split; [intros H; by apply elem_of_nil in H|intros [d H]; by apply elem_of_nil in H].
  - destruct e; rewrite ?elem_of_cons, IH; split;
      try (intros [d H]; exists d; by right);
      try (intros [d [H|H]%elem_of_cons]; [discriminate|by exists d]).
    + intros [->|[d' H]]; [exists depth; by left|exists d'; by right].
    + intros [d' [[= -> _]|H]%elem_of_cons]; [by left|right; by exists d'].
Qed.

Lemma run_setup_sets w c fs :
  seen_urls (self (run_setup w c fs)) = {[start_url c]} ∪ seen_urls c /\
  processed_urls (self (run_setup w c fs)) =
    processed_urls (self (load_history w {| self := c; files := fs; log := [] |})).
Proof.
  unfold run_setup, load_history. cbn [self files log].
  destruct (read_json w fs (history_file c)) as [data warned]. by destruct warned.
Qed.

(** X12.  In a run of any length no URL is dispatched twice, and neither
    the portal URL nor any URL that was in [seen_urls] before the run is
    dispatched at all. *)
Theorem dispatched_at_most_once w fuel c fs :
  let m := machine_of (run w fuel c fs) in
  NoDup (dispatched (log m)) /\
  forall u, u ∈ dispatched (log m) -> u <> start_url c /\ (u ∉ seen_urls c).
Proof.
  intros m. pose proof (run_Once w fuel c fs) as HO. fold m in HO.
  pose proof (once_nodup HO) as Hnd. pose proof (once_seen HO) as Hseen.
  rewrite app_nil_l in Hnd. split; [done|].
  intros u Hu. destruct (Hseen u) as [_ Hn]; [by rewrite app_nil_l|].
  rewrite (proj1 (run_setup_sets w c fs)) in Hn. set_solver.
Qed.

Lemma dispatched_at_most_once_witness :
  "https://x.test/a/1" <> start_url (init demo_config) /\
  ("https://x.test/a/1" ∉ seen_urls (init demo_config)).
Proof.
  apply (proj2 (dispatched_at_most_once demo_world 6 (init demo_config) demo_files)).
  by_evaluation.
Defined.

(** X13.  In a run of any length no URL is recorded in the history twice;
    the recorded URLs are exactly those whose PDF export completed, each
    was dispatched in this run, and none was in the history when the run
    began. *)
Theorem recorded_at_most_once w fuel c fs :
  let m := machine_of (run w fuel c fs) in
  let m0 := load_history w {| self := c; files := fs; log := [] |} in
  NoDup (records (log m)) /\
  exported (log m) = records (log m) /\
  forall u, u ∈ records (log m) ->
    u ∈ dispatched (log m) /\ (u ∉ processed_urls (self m0)).
Proof.
  intros m m0. pose proof (run_Once w fuel c fs) as HO. fold m in HO.
  split; [apply (once_rec_nodup HO)|]. split; [apply (once_pdf HO)|].
  intros u Hu. pose proof (once_rec_disp HO u Hu) as Hd. split; [done|].
  apply dispatched_elem in Hd as [d Hd].
  pose proof (run_Inv w fuel c fs) as HI. fold m m0 in HI.
  by apply (inv_events HI) in Hd as (_ & [[? _] _] & _).
Qed.

Lemma recorded_at_most_once_witness :
  "https://x.test/a/1" ∈ dispatched (log (machine_of (run demo_world 6 (init demo_config) demo_files))) /\
  ("https://x.test/a/1" ∉
     processed_urls (self (load_history demo_world
       {| self := init demo_config; files := demo_files; log := [] |}))).
Proof.
  apply (proj2 (proj2 (recorded_at_most_once demo_world 6 (init demo_config) demo_files))).
  by_evaluation.
Defined.

(** X14.  Throughout a run the set [processed_urls] is the key set of the
    in-memory history, and it is what was loaded plus the URLs recorded in
    this run; [seen_urls] never loses a member. *)
Theorem memory_matches_records w fuel c fs :
  let m := machine_of (run w fuel c fs) in
  let m0 := load_history w {| self := c; files := fs; log := [] |} in
  processed_urls (self m) = dom (history (self m)) /\
  processed_urls (self m) = processed_urls (self m0) ∪ list_to_set (records (log m)) /\
  {[start_url c]} ∪ seen_urls c ⊆ seen_urls (self m).
Proof.
  intros m m0. pose proof (run_Once w fuel c fs) as HO. fold m in HO.
  destruct (run_setup_sets w c fs) as [Hs Hp]. rewrite Hs, Hp in HO.
  split; [apply (once_hist HO)|]. split; [apply (once_proc HO)|apply (once_seen0 HO)].
Qed.

(** ** A site that is already archived *)

Lemma extract_nothing m hs :
  (forall u, ~ emitted_from (self m) hs u) ->
  snd (_extract_links_from_page m (Some hs)) = [].
Proof.
  intros H. destruct (_extract_links_from_page m (Some hs)) as [m' out] eqn:E.
  apply extract_exact in E as (_ & Hout & _). simpl.
  apply elem_of_nil_inv. intros u Hu. by apply (H u), Hout.
Qed.

Lemma portal_loop_quiet w fuel : forall m cnt it,
  (forall i, snd (_extract_links_from_page m (portal_hrefs w i)) = []) ->
  machine_of (portal_loop w fuel m cnt it) = m.
Proof.
  induction fuel as [|fuel IH]; intros m cnt it Hq; simpl; [done|].
  rewrite (extract_silent _ _ (Hq (S it))). simpl.
  destruct (_refresh_page w (self m) (S it)); [by apply IH|].
  destruct (Z.geb _ _); [done|by apply IH].
Qed.

(** X15.  Restart on an archived site: when every link the portal ever
    shows is, once normalised, in the loaded history, or the portal URL,
    or already seen, or outside the allow-list, a run of any length
    dispatches nothing, records nothing and leaves every file as it is. *)
Theorem archived_site_run_changes_nothing w fuel c fs :
  let m0 := run_setup w c fs in
  (forall i hs h,
     portal_hrefs w i = Some hs -> h ∈ hs -> truthy h = true ->
     normalize_url h ∈ processed_urls (self m0) \/
     normalize_url h ∈ seen_urls (self m0) \/
     prefix_allowed c (normalize_url h) = false) ->
  machine_of (run w fuel c fs) = m0.
Proof.
  intros m0 Hdone. unfold run. apply portal_loop_quiet. intros i. fold m0.
  destruct (portal_hrefs w i) as [hs|] eqn:E; [|done].
  apply extract_nothing. intros u ((h & Hh & Ht & <-) & Hpa & Hns & Hnp).
  destruct (Hdone i hs h E Hh Ht) as [?|[?|Hf]]; [done|done|].
  rewrite (prefix_allowed_settings _ c) in Hpa by apply run_setup_settings.
  congruence.
Qed.

Lemma archived_site_run_changes_nothing_witness :
  machine_of (run archived_world 7 (init demo_config) demo_files) =
  run_setup archived_world (init demo_config) demo_files.
Proof.
  apply (archived_site_run_changes_nothing archived_world 7 (init demo_config) demo_files).
  intros i hs h [= <-] Hin Ht.
  repeat (apply elem_of_cons in Hin as [->|Hin]).
  - left. by_evaluation.
  - right. left. by_evaluation.
  - discriminate Ht.
  - right. right. reflexivity.
  - left. by_evaluation.
  - by apply elem_of_nil in Hin.
Defined.

(** ** Politeness, one task at a time and in general *)

Lemma last_of_insert pdl d x d' :
  Politeness.last_of (<[d := x]> pdl) d' =
  if decide (d = d') then x else Politeness.last_of pdl d'.
Proof. unfold Politeness.last_of. rewrite lookup_insert. by case_decide. Qed.

Lemma Qltb_true a b : Qltb a b = true -> (a < b)%Q.
Proof.
  unfold Qltb. intros H%negb_true_iff. apply Qnot_le_lt. intros Hle.
  apply Qle_bool_iff in Hle. congruence.
Qed.

Lemma Qltb_false a b : Qltb a b = false -> (b <= a)%Q.
Proof. unfold Qltb. intros H%negb_false_iff. by apply Qle_bool_iff. Qed.

Lemma step_monotone delay_s s e s' :
  Politeness.step delay_s s e = Some s' ->
  (forall d, (Politeness.last_of (Politeness.per_domain_last s) d <= Politeness.clock s)%Q) ->
  (forall d, (Politeness.last_of (Politeness.per_domain_last s) d <=
              Politeness.last_of (Politeness.per_domain_last s') d)%Q) /\
  (forall d, (Politeness.last_of (Politeness.per_domain_last s') d <= Politeness.clock s')%Q) /\
  (Politeness.clock s <= Politeness.clock s')%Q.
Proof.
  intros E Hsane. destruct e as [dt|t u|t]; simpl in E.
  - destruct (Qle_bool 0 dt) eqn:Hdt; [|done]. injection E as <-. simpl.
    apply Qle_bool_iff in Hdt.
    split; [intros d; apply Qle_refl|]. split; [intros d; specialize (Hsane d); lra|lra].
  - destruct (Politeness.wait_check _ _ _ _); injection E as <-; simpl.
    + split; [intros d; apply Qle_refl|]. split; [done|apply Qle_refl].
    + unfold Politeness.wait_record.
      split; [|split; [|apply Qle_refl]]; intros d; rewrite last_of_insert;
        case_decide; try apply Qle_refl; apply Hsane.
  - destruct (Politeness.sleeping s !! t) as [[u due]|]; [|done].
    destruct (Qle_bool due (Politeness.clock s)); [|done]. injection E as <-. simpl.
    unfold Politeness.wait_record.
    split; [|split; [|apply Qle_refl]]; intros d; rewrite last_of_insert;
      case_decide; try apply Qle_refl; apply Hsane.
Qed.

(** X17.  However the calls of [domain_delay_wait] are interleaved, the
    time stored for a domain in [per_domain_last] never decreases and
    never lies ahead of the clock. *)
Theorem per_domain_last_monotone delay_s es : forall s s',
  (forall d, (Politeness.last_of (Politeness.per_domain_last s) d <= Politeness.clock s)%Q) ->
  Politeness.steps delay_s s es = Some s' ->
  forall d,
    (Politeness.last_of (Politeness.per_domain_last s) d <=
     Politeness.last_of (Politeness.per_domain_last s') d)%Q /\
    (Politeness.last_of (Politeness.per_domain_last s') d <= Politeness.clock s')%Q.
Proof.
  induction es as [|e es IH]; intros s s' Hsane E d; simpl in E.
  - injection E as <-. split; [apply Qle_refl|apply Hsane].
  - destruct (Politeness.step delay_s s e) as [s1|] eqn:E1; [|done].
    apply step_monotone in E1 as (Hm & Hsane1 & _); [|done].
    destruct (IH s1 s' Hsane1 E d) as [H1 H2]. split; [|done].
    eapply Qle_trans; [apply Hm|done].
Qed.

Lemma per_domain_last_monotone_witness :
  (Politeness.last_of (Politeness.per_domain_last (Politeness.fresh 1000)) "x.test" <=
   Politeness.last_of (Politeness.per_domain_last after_three_tasks) "x.test")%Q /\
  (Politeness.last_of (Politeness.per_domain_last after_three_tasks) "x.test" <=
   Politeness.clock after_three_tasks)%Q.
Proof.
  apply (per_domain_last_monotone 1 Politeness.three_tasks (Politeness.fresh 1000)
           after_three_tasks).
  - intros d. unfold Politeness.last_of. simpl. rewrite lookup_empty. simpl. lra.
  - vm_compute. reflexivity.
Defined.

(** What one visit does when nobody else is inside [domain_delay_wait]. *)
Lemma visit_effect delay_s s v rest s' :
  Politeness.sleeping s = ∅ ->
  serial delay_s s (v :: rest) = Some s' ->
  exists s2 x,
    serial delay_s s2 rest = Some s' /\
    Politeness.sleeping s2 = ∅ /\
    Politeness.released s2 =
      (visitor v, url_netloc (target v), x) :: Politeness.released s /\
    Politeness.per_domain_last s2 =
      <[url_netloc (target v) := x]> (Politeness.per_domain_last s) /\
    (Politeness.last_of (Politeness.per_domain_last s) (url_netloc (target v))
       + delay_s <= x)%Q.
Proof.
  intros Hempty E. simpl in E.
  destruct (Qle_bool 0 (idle v)); [|done]. simpl in E.
  unfold Politeness.wait_check in E.
  set (last := Politeness.last_of (Politeness.per_domain_last s) (url_netloc (target v))) in *.
  set (now := (Politeness.clock s + idle v)%Q) in *.
  destruct (Qltb (now - last) delay_s) eqn:Hcmp; simpl in E.
  - rewrite lookup_insert_eq in E. simpl in E.
    destruct (Qle_bool 0 _); [|done]. simpl in E.
    rewrite lookup_insert_eq in E.
    destruct (Qle_bool _ _) eqn:Hdue; [|done].
    apply Qle_bool_iff in Hdue. simpl in Hdue.
    eexists _, _. split; [exact E|]. simpl.
    split; [by rewrite Hempty, delete_insert_eq|]. split; [done|]. split; [done|].
    eapply Qle_trans; [|exact Hdue]. lra.
  - rewrite Hempty, lookup_empty in E.
    eexists _, _. split; [exact E|]. simpl. split; [done|]. split; [done|]. split; [done|].
    apply Qltb_false in Hcmp. lra.
Qed.

Lemma serial_spaced delay_s visits : forall s s',
  (0 <= delay_s)%Q ->
  Politeness.sleeping s = ∅ ->
  (forall t d x, (t, d, x) ∈ Politeness.released s ->
     (x <= Politeness.last_of (Politeness.per_domain_last s) d)%Q) ->
  spaced delay_s (Politeness.released s) ->
  serial delay_s s visits = Some s' ->
  spaced delay_s (Politeness.released s').
Proof.
  induction visits as [|v rest IH]; intros s s' Hdelay Hempty Hold Hsp E.
  - by injection E as <-.
  - apply visit_effect in E as (s2 & x & E & Hempty2 & Hrel & Hpdl & Hx); [|done].
    apply (IH s2 s'); try done.
    + intros t d x'. rewrite Hrel, Hpdl, last_of_insert.
      intros [[= -> -> ->]|Hin]%elem_of_cons.
      * rewrite decide_True by done. apply Qle_refl.
      * case_decide as Hd; [|by eapply Hold]. subst d.
        specialize (Hold _ _ _ Hin). lra.
    + rewrite Hrel. simpl. split; [|done].
      intros t' x' Hin. specialize (Hold _ _ _ Hin). lra.
Qed.

(** X16.  When the tasks go through [domain_delay_wait] one at a time, as
    they do with [concurrency = 1], every return for a domain comes at
    least [delay_s] after each earlier return for that domain. *)
Theorem serial_waits_are_polite delay_s t0 visits s' :
  (0 <= delay_s)%Q ->
  serial delay_s (Politeness.fresh t0) visits = Some s' ->
  spaced delay_s (Politeness.released s').
Proof.
  intros Hdelay E. apply (serial_spaced delay_s visits (Politeness.fresh t0) s'); try done.
  intros t d x Hin. by apply elem_of_nil in Hin.
Qed.

Lemma serial_waits_are_polite_witness :
  spaced 1 (Politeness.released after_four_visits).
Proof.
  apply (serial_waits_are_polite 1 1000 four_visits).
  - lra.
  - vm_compute. reflexivity.
Defined.

(** ** Properties every step of a run keeps

    A property of the machine that survives logging, marking a URL as
    seen, a robots query and a history entry survives the whole run. *)
Section Preserved.
Variable w : World.
Variable Q : Machine -> Prop.
Hypothesis Q_emit : forall e m, Q m -> Q (emit e m).
Hypothesis Q_seen : forall u m,
  Q m -> Q (with_self (fun c => set_seen_urls ({[u]} ∪ seen_urls c) c) m).
Hypothesis Q_robots : forall m url, Q m -> Q (fst (can_fetch_robots w m url)).
Hypothesis Q_save : forall it m url fname h,
  Q m -> Q (save_history_entry w it m url fname h).

Lemma extract_loop_keeps hrefs : forall m out,
  Q m -> Q (fst (extract_loop m hrefs out)).
Proof.
  induction hrefs as [|h rest IH]; intros m out HQ; simpl; [done|].
  destruct (negb (truthy h)); [by apply IH|].
  destruct (nonempty _ && negb _)%bool; [by apply IH|].
  destruct (mem _ (seen_urls _)); [by apply IH|].
  destruct (mem _ (processed_urls _)); [by apply IH|].
  apply IH. by apply Q_emit, Q_seen.
Qed.

Lemma extract_keeps m hrefs : Q m -> Q (fst (_extract_links_from_page m hrefs)).
Proof. destruct hrefs; simpl; [apply extract_loop_keeps|done]. Qed.

Lemma page_block_keeps it m url depth : Q m -> Q (fst (page_block w it m url depth)).
Proof.
  intros HQ. unfold page_block, _save_pdf_from_page.
  destruct (negb (new_page_ok w it url)); [by apply Q_emit|].
  destruct (pdf_ok w it url).
  - set (m1 := save_history_entry _ _ _ _ _ _).
    assert (HQ1 : Q m1) by (by apply Q_save, Q_emit, Q_emit).
    destruct (Z.ltb depth (max_depth (self m1))).
    + pose proof (extract_keeps m1 (page_hrefs w it url) HQ1) as H.
      destruct (_extract_links_from_page m1 _) as [m2 links]. by apply Q_emit.
    + by apply Q_emit.
  - set (m1 := emit _ (emit _ (emit _ m))).
    assert (HQ1 : Q m1) by (by do 3 apply Q_emit).
    destruct (Z.ltb depth (max_depth (self m1))).
    + pose proof (extract_keeps m1 (page_hrefs w it url) HQ1) as H.
      destruct (_extract_links_from_page m1 _) as [m2 links]. by apply Q_emit.
    + by apply Q_emit.
Qed.

Lemma start_tasks_keeps d tasks : forall m, Q m -> Q (fst (start_tasks w m d tasks)).
Proof.
  induction tasks as [|[i u] rest IH]; intros m HQ; simpl; [done|].
  pose proof (Q_robots m u HQ) as H1.
  destruct (can_fetch_robots w m u) as [m1 ok]. cbn [fst] in H1.
  destruct ok; simpl.
  - specialize (IH m1 H1). by destruct (start_tasks w m1 d rest) as [m2 [p2 f2]].
  - specialize (IH _ (Q_emit (EvReturn u d []) m1 H1)).
    by destruct (start_tasks w _ d rest) as [m2 [p2 f2]].
Qed.

Lemma resume_tasks_keeps it d order : forall m,
  Q m -> Q (fst (resume_tasks w it m d order)).
Proof.
  induction order as [|[i u] rest IH]; intros m HQ; simpl; [done|].
  pose proof (page_block_keeps it m u d HQ) as H1.
  destruct (page_block w it m u d) as [m1 r]. cbn [fst] in H1.
  specialize (IH m1 H1). by destruct (resume_tasks w it m1 d rest) as [m2 f2].
Qed.

Lemma run_level_keeps it m level d : Q m -> Q (fst (run_level w it m level d)).
Proof.
  intros HQ. unfold run_level.
  assert (H0 : Q (fold_left (fun m u => emit (EvDispatch u d) m) level m)).
  { clear -HQ Q_emit. revert m HQ.
    induction level as [|u level IH]; intros m HQ; simpl; [done|]. by apply IH, Q_emit. }
  pose proof (start_tasks_keeps d (number level) _ H0) as H1.
  destruct (start_tasks w _ d (number level)) as [m1 [pending early]]. cbn [fst] in H1.
  pose proof (resume_tasks_keeps it d
                (merge_sort (resumed_before w it d) pending) m1 H1) as H2.
  by destruct (resume_tasks w it m1 d _) as [m2 late].
Qed.

Lemma bfs_keeps it fuel : forall m level d, Q m -> Q (bfs w it fuel m level d).
Proof.
  induction fuel as [|fuel IH]; intros m level d HQ; simpl; [done|].
  destruct (nonempty level && Z.leb d (max_depth (self m)))%bool; [|done].
  pose proof (run_level_keeps it m level d HQ) as H1.
  destruct (run_level w it m level d) as [m1 results]. by apply IH.
Qed.

Lemma portal_loop_keeps fuel : forall m cnt it,
  Q m -> Q (machine_of (portal_loop w fuel m cnt it)).
Proof.
  induction fuel as [|fuel IH]; intros m cnt it HQ; simpl; [done|].
  pose proof (extract_keeps m (portal_hrefs w (S it)) HQ) as H1.
  destruct (_extract_links_from_page m _) as [m1 links]. cbn [fst] in H1.
  destruct (negb (nonempty links)).
  - destruct (_refresh_page w (self m1) (S it)); [by apply IH|].
    destruct (Z.geb _ _); [done|by apply IH].
  - pose proof (bfs_keeps (S it) (levels (self m1)) m1 links 1 H1) as H2.
    destruct (_refresh_page _ _ _); by apply IH.
Qed.

Lemma run_keeps fuel c fs : Q (run_setup w c fs) -> Q (machine_of (run w fuel c fs)).
Proof. apply portal_loop_keeps. Qed.
End Preserved.


(** X19.  With [obey_robots] off a run never consults robots.txt: the
    robots cache is at the end what it was at the start. *)
Theorem robots_off_never_read w fuel c fs :
  obey_robots c = false ->
  robots_cache (self (machine_of (run w fuel c fs))) = robots_cache c.
Proof.
  intros Hoff.
  assert (H : robots_untouched (robots_cache c) (machine_of (run w fuel c fs))).
  { apply run_keeps.
    - intros e m' H. exact H.
    - intros u m' H. exact H.
    - intros m' url [Ho Hc]. unfold can_fetch_robots. by rewrite Ho.
    - intros it m' url fname h [Ho Hc].
      destruct (save_history_entry_fields w it m' url fname h) as (_ & _ & _ & Hs & _).
      unfold save_history_entry. cbn [emit with_self self files log].
      destruct (write_json_atomic _ _ _ _ _) as [fs' warned]. by destruct warned.
    - unfold run_setup, load_history. cbn [self files log].
      destruct (read_json w fs (history_file c)) as [data warned].
      by destruct warned. }
  by destruct H.
Qed.

Lemma robots_off_never_read_witness :
  robots_cache (self (machine_of (run demo_world 6 (init demo_config) demo_files))) =
  robots_cache (init demo_config).
Proof.
  apply (robots_off_never_read demo_world 6 (init demo_config) demo_files). reflexivity.
Defined.
